(** * ec2-reservations: reconciliation of running instances and reservations

    A shallow embedding of [ec2-reservations.go].  The Go maps the program
    passes around are reference objects, so they live in a store of map
    objects; [int] is the 64-bit signed integer of the usual targets, with
    its wrap-around written out; the order in which [range] visits a map is
    left to a schedule that the theorems quantify over. *)

From Stdlib Require Import ZArith Lia.
From stdpp Require Import base tactics option list strings pretty sorting gmap fin_maps.

Local Open Scope Z_scope.

(** ** Machine integers *)

Module Int.

Definition min_int : Z := - 2 ^ 63.
Definition max_int : Z := 2 ^ 63 - 1.

(** Two's complement reduction of a mathematical result to an [int]. *)
Definition wrap (z : Z) : Z := (z + 2 ^ 63) mod 2 ^ 64 - 2 ^ 63.

Definition neg (a : Z) : Z := wrap (- a).
Definition add (a b : Z) : Z := wrap (a + b).
Definition sub (a b : Z) : Z := wrap (a - b).

(** The values of type [int]. *)
Definition in_range (z : Z) : Prop := min_int ≤ z ≤ max_int.

(** The counts the data model allows into the reconciler. *)
Definition is_count (z : Z) : Prop := 0 ≤ z ≤ max_int.

End Int.

(** ** Keys, count maps and the store of map objects *)

(** [Type] is reserved in Rocq, so the field is [Type_]. *)
Record instanceInfo := mkInfo { Type_ : string; AZ : string }.

Record reportedInfo := mkReported { RType : string; RAZ : string; Count : Z }.

#[global] Instance instanceInfo_eq_dec : EqDecision instanceInfo.
Proof. solve_decision. Defined.

#[global] Instance instanceInfo_countable : Countable instanceInfo.
Proof.
  refine (inj_countable' (λ k, (Type_ k, AZ k)) (λ p, mkInfo p.1 p.2) _).
  by intros [].
Defined.

#[global] Instance reportedInfo_eq_dec : EqDecision reportedInfo.
Proof. solve_decision. Defined.

(** [map[instanceInfo]int] as a value. *)
Abbreviation counts := (gmap instanceInfo Z).

(** A Go map variable holds a reference; [heap] maps references to the
    map objects they denote.  A reference that is not allocated behaves as
    the nil map on reads. *)
Abbreviation loc := nat.
Abbreviation heap := (gmap nat (gmap instanceInfo Z)).

Module Heap.

(** [v, ok := m[k]] *)
Definition lookup_at (h : heap) (m : loc) (k : instanceInfo) : option Z :=
  h !! m ≫= λ c, c !! k.

(** [m[k]] as an expression: the zero value when the key is absent. *)
Definition index (h : heap) (m : loc) (k : instanceInfo) : Z :=
  default 0 (lookup_at h m k).

(** [m[k] = v], for a map that has been made. *)
Definition assign (h : heap) (m : loc) (k : instanceInfo) (v : Z) : heap :=
  alter (λ c, <[k := v]> c) m h.

(** [delete(m, k)] *)
Definition delete_at (h : heap) (m : loc) (k : instanceInfo) : heap :=
  alter (λ c, delete k c) m h.

(** [make(map[instanceInfo]int)]: a fresh, empty map object. *)
Definition make (h : heap) : loc * heap :=
  let l := fresh (dom h) in (l, <[l := ∅]> h).

(** The keys of the object behind [m], in the store's own order. *)
Definition keys_at (h : heap) (m : loc) : list instanceInfo :=
  (map_to_list (default ∅ (h !! m))).*1.

End Heap.

Import Heap.

(** The key [instanceInfo{Type: k.Type}]: the zone is the zero string. *)
Definition strip (k : instanceInfo) : instanceInfo :=
  {| Type_ := Type_ k; AZ := EmptyString |}.

(** ** The reconciler *)

Section Reconcile.

(** Go leaves the order of [range] over a map unspecified.  [sched site l]
    is the order in which the loop at [site] visits the keys [l]; any
    permutation is possible. *)
Variable sched : nat → list instanceInfo → list instanceInfo.

Definition fair : Prop := ∀ site l, sched site l ≡ₚ l.

(** [for k, v := range m { body }].  The key set is fixed when the loop
    starts; the value handed to the body is the one the object holds when
    the key is reached, and a key deleted in the meantime is skipped. *)
Definition range (site : nat) (m : loc)
    (body : instanceInfo → Z → heap → heap) (h : heap) : heap :=
  foldl (λ h k, match lookup_at h m k with
                | Some v => body k v h
                | None => h
                end) h (sched site (keys_at h m)).

(** The body of the third loop of [reconcile]. *)
Definition borrow (out regionReservations : loc)
    (k : instanceInfo) (v : Z) (h : heap) : heap :=
  if bool_decide (0 ≤ v) then h
  else
    let k2 := strip k in
    match lookup_at h regionReservations k2 with
    | Some v2 =>
        let need := Int.neg v in
        let have := v2 in
        if bool_decide (have ≤ need) then
          delete_at (assign h out k (Int.add v v2)) regionReservations k2
        else
          let n := Int.sub have need in
          assign (assign h out k (Int.add v n))
                 regionReservations k2 (Int.sub v2 n)
    | None => h
    end.

Definition reconcile (runningInstances azReservations regionReservations : loc)
    (h : heap) : loc * heap :=
  let '(out, h) := make h in
  let h := range 1 runningInstances
             (λ k v h, assign h out k (Int.neg v)) h in
  let h := range 2 azReservations
             (λ k v h, assign h out k (Int.add (index h out k) v)) h in
  let h := range 3 out (borrow out regionReservations) h in
  let h := range 4 regionReservations (λ k v h, assign h out k v) h in
  (out, h).

(** The call as [do] makes it: three distinct map objects.  The result is
    the returned mapping together with the region map as the call leaves
    it. *)
Definition call_reconcile (running az region : counts) : counts * counts :=
  let h0 : heap := <[2%nat := region]> (<[1%nat := az]> {[0%nat := running]}) in
  let '(out, h) := reconcile 0 1 2 h0 in
  (default ∅ (h !! out), default ∅ (h !! 2%nat)).

(** *** The same loops on the two maps they change

    [reconcile] only ever writes to the fresh object [out] and to the
    region map, so its effect is a function of the three map values.  The
    passes below are the loops of [reconcile] with the store replaced by
    the pair (out, region); [reconcile_on_heap] relates the two. *)

Definition keys (m : counts) : list instanceInfo := (map_to_list m).*1.

Definition seed_pass (running : counts) : counts :=
  foldl (λ out k, match running !! k with
                  | Some v => <[k := Int.neg v]> out
                  | None => out
                  end) ∅ (sched 1 (keys running)).

Definition zone_pass (az out : counts) : counts :=
  foldl (λ out k, match az !! k with
                  | Some v => <[k := Int.add (default 0 (out !! k)) v]> out
                  | None => out
                  end) out (sched 2 (keys az)).

Definition borrow_step (k : instanceInfo) (v : Z)
    (s : counts * counts) : counts * counts :=
  if bool_decide (0 ≤ v) then s
  else
    let k2 := strip k in
    match s.2 !! k2 with
    | Some v2 =>
        let need := Int.neg v in
        let have := v2 in
        if bool_decide (have ≤ need) then
          (<[k := Int.add v v2]> s.1, delete k2 s.2)
        else
          let n := Int.sub have need in
          (<[k := Int.add v n]> s.1, <[k2 := Int.sub v2 n]> s.2)
    | None => s
    end.

Definition visit (s : counts * counts) (k : instanceInfo) : counts * counts :=
  match s.1 !! k with
  | Some v => borrow_step k v s
  | None => s
  end.

Definition borrow_pass (s : counts * counts) : counts * counts :=
  foldl visit s (sched 3 (keys s.1)).

Definition flush_pass (region out : counts) : counts :=
  foldl (λ out k, match region !! k with
                  | Some v => <[k := v]> out
                  | None => out
                  end) out (sched 4 (keys region)).

Definition reconcile_maps (running az region : counts) : counts * counts :=
  let s := borrow_pass (zone_pass az (seed_pass running), region) in
  (flush_pass s.2 s.1, s.2).

End Reconcile.

(** ** The command: fetching, parsing, reporting *)

(** The records of the AWS SDK that [do] reads.  The SDK hands every field
    out as a pointer, which may be nil. *)
Record Placement := { AvailabilityZone : option string }.

Record Instance := {
  InstanceType : option string;
  Placement_ : option Placement
}.

Record Reservation := { Instances : list Instance }.

Record ReservedInstances := {
  Scope : option string;
  RInstanceType : option string;
  InstanceCount : option Z;
  RAvailabilityZone : option string
}.

Inductive error : Type :=
  | Collaborator (msg : string)
      (** an error value of the SDK or of the output stream *)
  | UnknownScope (scope : string).
      (** [fmt.Errorf("unknown reservation scope: %q", scope)] *)

(** What the outside world answers during one run. *)
Record world := {
  NewSession : option error;
  DescribeInstances : error + list Reservation;
  DescribeReservedInstances : error + list ReservedInstances;
  Flush : option error
}.

(** What a run does that can be seen from outside [do]: the call of the
    reconciler and the text handed to the tab writer (which lays it out in
    columns on the output stream). *)
Inductive event : Type :=
  | Reconciled
  | Wrote (text : string).

(** A run stops early by returning an error or by a nil dereference. *)
Inductive stop : Type :=
  | Fail (e : error)
  | Panic.

Definition M (A : Type) : Type := list event → list event * (stop + A).

#[global] Instance M_ret : MRet M := λ A a log, (log, inr a).

#[global] Instance M_bind : MBind M := λ A B f m log,
  match m log with
  | (log', inl s) => (log', inl s)
  | (log', inr a) => f a log'
  end.

Definition emit (e : event) : M unit := λ log, (log ++ [e], inr tt).
Definition fail {A} (e : error) : M A := λ log, (log, inl (Fail e)).
Definition panic {A} : M A := λ log, (log, inl Panic).

(** [*p] *)
Definition deref {A} (p : option A) : M A :=
  match p with
  | Some a => mret a
  | None => panic
  end.

(** [if err != nil { return err }] *)
Definition check (err : option error) : M unit :=
  match err with
  | Some e => fail e
  | None => mret tt
  end.

Definition fetched {A} (r : error + A) : M A :=
  match r with
  | inl e => fail e
  | inr a => mret a
  end.

(** [for _, x := range l { body }] over a slice, threading the variables
    the body assigns to. *)
Fixpoint for_each {A S} (l : list A) (body : S → A → M S) (s : S) : M S :=
  match l with
  | [] => mret s
  | x :: l => s' ← body s x; for_each l body s'
  end.

Definition tab : string := String (Ascii.ascii_of_nat 9) EmptyString.
Definition newline : string := String (Ascii.ascii_of_nat 10) EmptyString.

(** [fmt.Fprintln(tw, s)] *)
Definition Fprintln (s : string) : M unit := emit (Wrote (s +:+ newline)).

(** [sort.SliceStable] of the Go library, by its contract: the slice is
    sorted by [less] and elements that [less] does not order keep their
    order.  Insertion sort is the library's own method on short slices. *)
Fixpoint insert_stable {A} (less : A → A → bool) (x : A) (l : list A) : list A :=
  match l with
  | [] => [x]
  | y :: l' => if less y x then y :: insert_stable less x l' else x :: l
  end.

Definition SliceStable {A} (less : A → A → bool) (l : list A) : list A :=
  foldr (insert_stable less) [] l.

(** [a.Type < b.Type] on Go strings: bytewise lexicographic. *)
Definition by_type (a b : reportedInfo) : bool := String.ltb (RType a) (RType b).

Definition on_demand_row (v : reportedInfo) : string :=
  RType v +:+ tab +:+ pretty (Count v) +:+ tab +:+ RAZ v +:+ newline.

Definition unused_row (v : reportedInfo) : string :=
  RType v +:+ tab +:+ pretty (Count v) +:+ newline.

Section Do.

Variable sched : nat → list instanceInfo → list instanceInfo.

Definition count_running (resp : list Reservation) : M counts :=
  for_each resp (λ m r,
    for_each (Instances r) (λ m inst,
      ty ← deref (InstanceType inst);
      pl ← deref (Placement_ inst);
      az ← deref (AvailabilityZone pl);
      let ii := {| Type_ := ty; AZ := az |} in
      mret (<[ii := Int.add (default 0 (m !! ii)) 1]> m)) m) ∅.

(** The body of the loop over the reserved instances; the state is
    (azReservations, regionReservations). *)
Definition parse_one (s : counts * counts) (r : ReservedInstances)
    : M (counts * counts) :=
  let '(azReservations, regionReservations) := s in
  scope ← deref (Scope r);
  if decide (scope = "Region") then
    ty ← deref (RInstanceType r);
    let ii := {| Type_ := ty; AZ := EmptyString |} in
    n ← deref (InstanceCount r);
    mret (azReservations,
          <[ii := Int.add (default 0 (regionReservations !! ii)) n]>
            regionReservations)
  else if decide (scope = "Availability Zone") then
    ty ← deref (RInstanceType r);
    az ← deref (RAvailabilityZone r);
    let ii := {| Type_ := ty; AZ := az |} in
    n ← deref (InstanceCount r);
    mret (<[ii := Int.add (default 0 (azReservations !! ii)) n]>
            azReservations,
          regionReservations)
  else fail (UnknownScope scope).

Definition parse_reservations (ris : list ReservedInstances)
    : M (counts * counts) :=
  for_each ris parse_one (∅, ∅).

(** The loop over the result of [reconcile]; the state is
    (onDemandInstances, unusedReservations). *)
Definition collect (result : counts) : list reportedInfo * list reportedInfo :=
  foldl (λ '(onDemandInstances, unusedReservations) k,
    match result !! k with
    | Some v =>
        if bool_decide (v < 0) then
          (onDemandInstances
             ++ [{| RType := Type_ k; RAZ := AZ k; Count := Int.neg v |}],
           unusedReservations)
        else if bool_decide (0 < v) then
          (onDemandInstances,
           unusedReservations
             ++ [{| RType := Type_ k; RAZ := EmptyString; Count := v |}])
        else (onDemandInstances, unusedReservations)
    | None => (onDemandInstances, unusedReservations)
    end) ([], []) (sched 5 (keys result)).

(** The two report sequences as [do] prints them. *)
Definition report (result : counts) : list reportedInfo * list reportedInfo :=
  let '(onDemandInstances, unusedReservations) := collect result in
  (SliceStable by_type onDemandInstances,
   SliceStable by_type unusedReservations).

(** The writes to the tab writer. *)
Definition render (onDemandInstances unusedReservations : list reportedInfo)
    : M unit :=
  (if bool_decide (0 < length onDemandInstances)%nat
   then Fprintln "On-demand EC2 instances:" else mret tt);;
  for_each onDemandInstances (λ _ v, emit (Wrote (on_demand_row v))) tt;;
  (if bool_decide (0 < length unusedReservations)%nat
   then Fprintln "Unused reservations:" else mret tt);;
  for_each unusedReservations (λ _ v, emit (Wrote (unused_row v))) tt.

Definition do (w : world) : M unit :=
  check (NewSession w);;
  resp ← fetched (DescribeInstances w);
  runningInstances ← count_running resp;
  ris ← fetched (DescribeReservedInstances w);
  '(azReservations, regionReservations) ← parse_reservations ris;
  emit Reconciled;;
  let result :=
    (call_reconcile sched runningInstances azReservations regionReservations).1 in
  let '(onDemandInstances, unusedReservations) := report result in
  render onDemandInstances unusedReservations;;
  check (Flush w).

(** The process as seen from outside. *)
Record process := {
  written : list string;     (** handed to the tab writer on stdout *)
  stderr : option stop;      (** the error line, or the panic trace *)
  exit_code : Z
}.

Definition texts (log : list event) : list string :=
  omap (λ e, match e with Wrote s => Some s | Reconciled => None end) log.

Definition main (w : world) : process :=
  match do w [] with
  | (log, inr _) => {| written := texts log; stderr := None; exit_code := 0 |}
  | (log, inl (Fail e)) =>
      {| written := texts log; stderr := Some (Fail e); exit_code := 1 |}
  | (log, inl Panic) =>
      {| written := texts log; stderr := Some Panic; exit_code := 2 |}
  end.

End Do.

(** ** The vocabulary of the statements *)

(** *** Sums over a count map *)

Definition msum (f : Z → Z) (m : counts) : Z :=
  map_fold (λ _ v acc, f v + acc) 0 m.

(** The sum of all values. *)
Definition total (m : counts) : Z := msum id m.

(** The sum of the magnitudes of the negative entries. *)
Definition uncovered (m : counts) : Z :=
  msum (λ v, if bool_decide (v < 0) then - v else 0) m.

(** The sum of the positive entries. *)
Definition unused (m : counts) : Z :=
  msum (λ v, if bool_decide (0 < v) then v else 0) m.

(** *** The inputs of the data model *)

(** Zones are populated in the keys of the running and zone-reservation
    maps and empty in the keys of the region map. *)
Definition zone_keyed (m : counts) : Prop :=
  map_Forall (λ k _, AZ k ≠ EmptyString) m.

Definition region_keyed (m : counts) : Prop :=
  map_Forall (λ k _, AZ k = EmptyString) m.

(** Every value is a count. *)
Definition counts_ok (m : counts) : Prop :=
  map_Forall (λ _ v, Int.is_count v) m.

(** Deltas never reach [min_int]. *)
Definition deltas_ok (m : counts) : Prop :=
  map_Forall (λ _ v, - Int.max_int ≤ v ≤ Int.max_int) m.

(** *** The passes and their invariants *)

(** The loop invariant behind conservation: no value leaves the range in
    which the arithmetic is exact, and what [out] gains the pool loses. *)
Definition balanced (C : Z) (s : counts * counts) : Prop :=
  deltas_ok s.1 ∧ counts_ok s.2 ∧ total s.1 + total s.2 = C.

(** The mapping after the first two passes. *)
Definition zoned (sched : nat → list instanceInfo → list instanceInfo)
    (running az : counts) : counts :=
  zone_pass sched az (seed_pass sched running).

(** The state the borrowing loop ends in. *)
Definition borrowed (sched : nat → list instanceInfo → list instanceInfo)
    (running az region : counts) : counts * counts :=
  borrow_pass sched (zoned sched running az, region).

(** The store [h] with [s.1] behind the reference [o] and [s.2] behind the
    reference [g]. *)
Definition st (h : heap) (g o : loc) (s : counts * counts) : heap :=
  <[o := s.1]> (<[g := s.2]> h).

(** *** Reports and runs *)

(** [type_le a b]: [b] does not sort before [a]. *)
Definition type_le (a b : reportedInfo) : Prop := by_type b a = false.

(** [not_after less a b]: [less] does not put [b] before [a]. *)
Definition not_after {A} (less : A → A → bool) (a b : A) : Prop :=
  less b a = false.

(** The row, if any, that the collecting loop appends at key [k]. *)
Definition on_demand_of (result : counts) (k : instanceInfo)
    : option reportedInfo :=
  match result !! k with
  | Some v =>
      if bool_decide (v < 0)
      then Some {| RType := Type_ k; RAZ := AZ k; Count := Int.neg v |}
      else None
  | None => None
  end.

Definition unused_of (result : counts) (k : instanceInfo)
    : option reportedInfo :=
  match result !! k with
  | Some v =>
      if bool_decide (v < 0) then None
      else if bool_decide (0 < v)
      then Some {| RType := Type_ k; RAZ := EmptyString; Count := v |}
      else None
  | None => None
  end.

(** The fields [do] dereferences are there. *)
Definition complete_instance (inst : Instance) : Prop :=
  is_Some (InstanceType inst)
  ∧ match Placement_ inst with
    | Some pl => is_Some (AvailabilityZone pl)
    | None => False
    end.

Definition complete_reserved (r : ReservedInstances) : Prop :=
  match Scope r with
  | Some s =>
      if decide (s = "Region") then
        is_Some (RInstanceType r) ∧ is_Some (InstanceCount r)
      else if decide (s = "Availability Zone") then
        is_Some (RInstanceType r) ∧ is_Some (RAvailabilityZone r)
        ∧ is_Some (InstanceCount r)
      else True
  | None => False
  end.

(** The record carries a scope that is neither of the two known ones. *)
Definition unknown_scope (r : ReservedInstances) : Prop :=
  match Scope r with
  | Some s => s ≠ "Region" ∧ s ≠ "Availability Zone"
  | None => False
  end.

#[global] Instance complete_instance_dec inst : Decision (complete_instance inst).
Proof. unfold complete_instance. destruct (Placement_ inst); apply _. Defined.

#[global] Instance complete_reserved_dec r : Decision (complete_reserved r).
Proof.
  unfold complete_reserved. destruct (Scope r); [|apply _].
  repeat case_decide; apply _.
Defined.

#[global] Instance unknown_scope_dec r : Decision (unknown_scope r).
Proof. unfold unknown_scope. destruct (Scope r); apply _. Defined.

#[global] Instance error_eq_dec : EqDecision error.
Proof. solve_decision. Defined.

#[global] Instance event_eq_dec : EqDecision event.
Proof. solve_decision. Defined.

#[global] Instance stop_eq_dec : EqDecision stop.
Proof. solve_decision. Defined.

Definition on_demand_header : string := "On-demand EC2 instances:" +:+ newline.
Definition unused_header : string := "Unused reservations:" +:+ newline.

(** The texts of a report, in the order of writing. *)
Definition report_texts (od un : list reportedInfo) : list string :=
  (if od is [] then [] else [on_demand_header])
  ++ (on_demand_row <$> od)
  ++ (if un is [] then [] else [unused_header])
  ++ (unused_row <$> un).

Fixpoint has_tab (s : string) : bool :=
  match s with
  | EmptyString => false
  | String c s' => bool_decide (c = Ascii.ascii_of_nat 9) || has_tab s'
  end.

(** *** Examples *)

(** The schedule that keeps the store's own order. *)
Definition in_order : nat → list instanceInfo → list instanceInfo := λ _ l, l.

(** A world for the examples: one running m3.medium in us-east-1a and one
    reserved-instances record. *)
Definition running_instance (ty az : string) : Instance :=
  {| InstanceType := Some ty;
     Placement_ := Some {| AvailabilityZone := Some az |} |}.

Definition world_with (ris : list ReservedInstances) : world :=
  {| NewSession := None;
     DescribeInstances :=
       inr [{| Instances := [running_instance "m3.medium" "us-east-1a"] |}];
     DescribeReservedInstances := inr ris;
     Flush := None |}.

Definition custom_record : ReservedInstances :=
  {| Scope := Some "Custom"; RInstanceType := Some "m3.medium";
     InstanceCount := Some 1; RAvailabilityZone := None |}.

#[global] Instance is_count_dec v : Decision (Int.is_count v).
Proof. unfold Int.is_count. apply _. Defined.

#[global] Instance counts_ok_dec m : Decision (counts_ok m).
Proof. unfold counts_ok. apply _. Defined.

#[global] Instance zone_keyed_dec m : Decision (zone_keyed m).
Proof. unfold zone_keyed. apply _. Defined.

#[global] Instance region_keyed_dec m : Decision (region_keyed m).
Proof. unfold region_keyed. apply _. Defined.

(** Settles a decidable closed proposition by evaluation. *)
Ltac by_evaluation :=
  match goal with
  | |- ?P => apply (@bool_decide_unpack P _); vm_compute; exact I
  end.

(** The schedule that visits the keys in the opposite order. *)
Definition backwards : nat → list instanceInfo → list instanceInfo :=
  λ _ l, reverse l.

Definition m3_medium_1b : instanceInfo :=
  {| Type_ := "m3.medium"; AZ := "us-east-1b" |}.

Definition m3_medium_1a : instanceInfo :=
  {| Type_ := "m3.medium"; AZ := "us-east-1a" |}.

Definition m3_medium : instanceInfo :=
  {| Type_ := "m3.medium"; AZ := EmptyString |}.

(** *** The loops of [do] on their own *)

(** [m[k] += n] *)
Definition bump (m : counts) (k : instanceInfo) (n : Z) : counts :=
  <[k := Int.add (default 0 (m !! k)) n]> m.

(** A run of [m[k] += n] over a list of keys and amounts. *)
Definition tally (l : list (instanceInfo * Z)) (m : counts) : counts :=
  foldl (λ m e, bump m e.1 e.2) m l.

(** The sum of the amounts a list holds for the key [k]. *)
Definition sum_at (k : instanceInfo) (l : list (instanceInfo * Z)) : Z :=
  foldr (λ e acc, if decide (e.1 = k) then e.2 + acc else acc) 0 l.

(** The key a running instance is counted under, when its fields are
    there. *)
Definition instance_key (inst : Instance) : option instanceInfo :=
  match InstanceType inst, Placement_ inst with
  | Some ty, Some pl =>
      match AvailabilityZone pl with
      | Some az => Some {| Type_ := ty; AZ := az |}
      | None => None
      end
  | _, _ => None
  end.

(** The entries the counting loop adds: one per instance. *)
Definition counted (l : list Instance) : list (instanceInfo * Z) :=
  (λ k, (k, 1)) <$> omap instance_key l.

Definition all_instances (resp : list Reservation) : list Instance :=
  concat (Instances <$> resp).

(** The number of fetched instances of type and zone [k]. *)
Definition instances_at (k : instanceInfo) (resp : list Reservation) : nat :=
  length (filter (λ inst, instance_key inst = Some k) (all_instances resp)).

(** What a region-scoped record adds, and where. *)
Definition region_entry (r : ReservedInstances) : option (instanceInfo * Z) :=
  match Scope r, RInstanceType r, InstanceCount r with
  | Some scope, Some ty, Some n =>
      if decide (scope = "Region")
      then Some ({| Type_ := ty; AZ := EmptyString |}, n)
      else None
  | _, _, _ => None
  end.

(** What a zone-scoped record adds, and where. *)
Definition zone_entry (r : ReservedInstances) : option (instanceInfo * Z) :=
  match Scope r, RInstanceType r, RAvailabilityZone r, InstanceCount r with
  | Some scope, Some ty, Some az, Some n =>
      if decide (scope = "Availability Zone")
      then Some ({| Type_ := ty; AZ := az |}, n)
      else None
  | _, _, _, _ => None
  end.

(** The record can be parsed: its fields are there and its scope is
    known. *)
Definition reserved_ok (r : ReservedInstances) : Prop :=
  complete_reserved r ∧ ¬ unknown_scope r.

#[global] Instance reserved_ok_dec r : Decision (reserved_ok r).
Proof. unfold reserved_ok. apply _. Defined.

(** The sum of all amounts of a list of entries. *)
Definition sum_amounts (l : list (instanceInfo * Z)) : Z :=
  foldr (λ e acc, e.2 + acc) 0 l.

(** The sum of the counts of the fetched reserved-instances records. *)
Definition reserved_total (ris : list ReservedInstances) : Z :=
  foldr (λ r acc, default 0 (InstanceCount r) + acc) 0 ris.

(** The sum of the counts of a report sequence. *)
Definition sum_counts (l : list reportedInfo) : Z :=
  foldr (λ r acc, Count r + acc) 0 l.

(** ** The store and the pair view agree *)

Section Refinement.

Variable sched : nat → list instanceInfo → list instanceInfo.

Variables (h : heap) (r a g o : loc) (R A G : counts).
Hypothesis Hr : h !! r = Some R.
Hypothesis Ha : h !! a = Some A.
Hypothesis Hg : h !! g = Some G.
Hypothesis Ho : h !! o = None.

#[local] Abbreviation stv := (st h g o).

Lemma o_ne_g : o ≠ g.
Proof using Hg Ho. intros ->. congruence. Qed.

Lemma lookup_at_out s k : lookup_at (stv s) o k = s.1 !! k.
Proof. unfold lookup_at, st. by rewrite lookup_insert_eq. Qed.

Lemma lookup_at_region s k : lookup_at (stv s) g k = s.2 !! k.
Proof using Hg Ho.
  unfold lookup_at, st. rewrite lookup_insert_ne by apply o_ne_g.
  by rewrite lookup_insert_eq.
Qed.

Lemma lookup_at_running O k : lookup_at (stv (O, G)) r k = R !! k.
Proof using Hr Hg Ho.
  unfold lookup_at, st. simpl.
  rewrite lookup_insert_ne by congruence.
  destruct (decide (g = r)) as [->|Hne].
  - rewrite lookup_insert_eq. simpl. congruence.
  - rewrite lookup_insert_ne by done. by rewrite Hr.
Qed.

Lemma lookup_at_az O k : lookup_at (stv (O, G)) a k = A !! k.
Proof using Ha Hg Ho.
  unfold lookup_at, st. simpl.
  rewrite lookup_insert_ne by congruence.
  destruct (decide (g = a)) as [->|Hne].
  - rewrite lookup_insert_eq. simpl. congruence.
  - rewrite lookup_insert_ne by done. by rewrite Ha.
Qed.

Lemma assign_out s k v : assign (stv s) o k v = stv (<[k := v]> s.1, s.2).
Proof.
  unfold assign, st. simpl.
  by rewrite alter_insert_eq.
Qed.

Lemma assign_region s k v : assign (stv s) g k v = stv (s.1, <[k := v]> s.2).
Proof using Hg Ho.
  unfold assign, st. simpl.
  rewrite alter_insert_ne by (pose proof o_ne_g; done).
  by rewrite alter_insert_eq.
Qed.

Lemma delete_at_region s k : delete_at (stv s) g k = stv (s.1, delete k s.2).
Proof using Hg Ho.
  unfold delete_at, st. simpl.
  rewrite alter_insert_ne by (pose proof o_ne_g; done).
  by rewrite alter_insert_eq.
Qed.

Lemma keys_at_out s : keys_at (stv s) o = keys s.1.
Proof. unfold keys_at, keys, st. by rewrite lookup_insert_eq. Qed.

Lemma keys_at_region s : keys_at (stv s) g = keys s.2.
Proof using Hg Ho.
  unfold keys_at, keys, st. rewrite lookup_insert_ne by apply o_ne_g.
  by rewrite lookup_insert_eq.
Qed.

Lemma keys_at_running O : keys_at (stv (O, G)) r = keys R.
Proof using Hr Hg Ho.
  unfold keys_at, keys, st. simpl.
  rewrite lookup_insert_ne by congruence.
  destruct (decide (g = r)) as [->|Hne].
  - rewrite lookup_insert_eq. simpl. congruence.
  - rewrite lookup_insert_ne by done. by rewrite Hr.
Qed.

Lemma keys_at_az O : keys_at (stv (O, G)) a = keys A.
Proof using Ha Hg Ho.
  unfold keys_at, keys, st. simpl.
  rewrite lookup_insert_ne by congruence.
  destruct (decide (g = a)) as [->|Hne].
  - rewrite lookup_insert_eq. simpl. congruence.
  - rewrite lookup_insert_ne by done. by rewrite Ha.
Qed.

(** A loop on the store that keeps to stores of the form [stv s] is a loop
    on [s]. *)
Lemma foldl_st {S} (φ : S → heap) (fh : heap → instanceInfo → heap)
    (f : S → instanceInfo → S) (l : list instanceInfo) :
  (∀ s k, fh (φ s) k = φ (f s k)) →
  ∀ s, foldl fh (φ s) l = φ (foldl f s l).
Proof.
  intros Hstep. induction l as [|k l IH]; intros s; simpl; [done|].
  by rewrite Hstep, IH.
Qed.

Lemma borrow_st s k v : borrow o g k v (stv s) = stv (borrow_step k v s).
Proof using Hg Ho.
  unfold borrow, borrow_step. case_bool_decide; [done|].
  rewrite lookup_at_region. destruct (s.2 !! strip k) as [v2|]; [|done].
  simpl. case_bool_decide.
  - by rewrite assign_out, delete_at_region.
  - by rewrite assign_out, assign_region.
Qed.

Lemma range_seed :
  range sched 1 r (λ k v h, assign h o k (Int.neg v)) (stv (∅, G))
  = stv (seed_pass sched R, G).
Proof using Hr Hg Ho.
  unfold range, seed_pass. rewrite keys_at_running.
  rewrite (foldl_st (λ O, stv (O, G)) _
    (λ out k, match R !! k with
              | Some v => <[k := Int.neg v]> out
              | None => out
              end)); [done|].
  intros O k. rewrite lookup_at_running.
  destruct (R !! k); [|done]. by rewrite assign_out.
Qed.

Lemma range_zone O :
  range sched 2 a (λ k v h, assign h o k (Int.add (index h o k) v)) (stv (O, G))
  = stv (zone_pass sched A O, G).
Proof using Ha Hg Ho.
  unfold range, zone_pass. rewrite keys_at_az.
  rewrite (foldl_st (λ O, stv (O, G)) _
    (λ out k, match A !! k with
              | Some v => <[k := Int.add (default 0 (out !! k)) v]> out
              | None => out
              end)); [done|].
  intros O' k. rewrite lookup_at_az.
  destruct (A !! k); [|done].
  unfold index. by rewrite assign_out, lookup_at_out.
Qed.

Lemma range_borrow s :
  range sched 3 o (borrow o g) (stv s) = stv (borrow_pass sched s).
Proof using Hg Ho.
  unfold range, borrow_pass. rewrite keys_at_out.
  rewrite (foldl_st stv _ visit); [done|].
  intros s' k. unfold visit. rewrite lookup_at_out.
  destruct (s'.1 !! k); [|done]. apply borrow_st.
Qed.

Lemma range_flush s :
  range sched 4 g (λ k v h, assign h o k v) (stv s)
  = stv (flush_pass sched s.2 s.1, s.2).
Proof using Hg Ho.
  destruct s as [O1 G1]. unfold range, flush_pass. rewrite keys_at_region.
  simpl.
  rewrite (foldl_st (λ O, stv (O, G1)) _
    (λ out k, match G1 !! k with
              | Some v => <[k := v]> out
              | None => out
              end)); [done|].
  intros O k. rewrite lookup_at_region. simpl.
  destruct (G1 !! k); [|done]. by rewrite assign_out.
Qed.

End Refinement.

(** [reconcile] on any store in which its three arguments denote maps:
    it returns a fresh reference holding the first component of
    [reconcile_maps], leaves the second component behind the region
    reference, and touches nothing else.  The arguments may alias. *)
Lemma reconcile_on_heap sched (h : heap) (r a g : loc) (R A G : counts) :
  h !! r = Some R → h !! a = Some A → h !! g = Some G →
  reconcile sched r a g h
  = (fresh (dom h),
     <[fresh (dom h) := (reconcile_maps sched R A G).1]>
       (<[g := (reconcile_maps sched R A G).2]> h)).
Proof.
  intros Hr Ha Hg.
  assert (Ho : h !! fresh (dom h) = None).
  { apply not_elem_of_dom, is_fresh. }
  unfold reconcile, make, reconcile_maps.
  replace (<[fresh (dom h) := ∅]> h) with (st h g (fresh (dom h)) (∅, G)).
  2:{ unfold st. simpl. by rewrite (insert_id h g G). }
  rewrite (range_seed sched h r g _ R G Hr Hg Ho).
  rewrite (range_zone sched h a g _ A G Ha Hg Ho).
  rewrite (range_borrow sched h g _ G Hg Ho).
  rewrite (range_flush sched h g _ G Hg Ho).
  done.
Qed.

Lemma call_reconcile_maps sched (running az region : counts) :
  call_reconcile sched running az region = reconcile_maps sched running az region.
Proof.
  unfold call_reconcile.
  rewrite (reconcile_on_heap sched _ 0%nat 1%nat 2%nat running az region) by done.
  rewrite lookup_insert_eq. simpl.
  rewrite lookup_insert_ne.
  - by rewrite lookup_insert_eq.
  - intros Heq.
    pose proof (is_fresh (dom (<[2%nat := region]>
      (<[1%nat := az]> ({[0%nat := running]} : heap))))) as Hf.
    rewrite Heq in Hf. apply Hf. set_solver.
Qed.

(** ** Arithmetic without overflow *)

Lemma wrap_in_range z : Int.in_range z → Int.wrap z = z.
Proof.
  unfold Int.in_range, Int.min_int, Int.max_int, Int.wrap.
  change (2 ^ 63) with 9223372036854775808.
  change (2 ^ 64) with 18446744073709551616.
  intros Hz. rewrite Z.mod_small by lia. lia.
Qed.

Lemma max_int_val : Int.max_int = 9223372036854775807.
Proof. reflexivity. Qed.

Lemma min_int_val : Int.min_int = -9223372036854775808.
Proof. reflexivity. Qed.

Ltac int_simpl :=
  unfold Int.is_count, Int.in_range, Int.neg, Int.add, Int.sub in *;
  rewrite ?max_int_val, ?min_int_val in *.

Lemma neg_exact v : - Int.max_int ≤ v ≤ Int.max_int → Int.neg v = - v.
Proof. intros Hv. unfold Int.neg. apply wrap_in_range. int_simpl. lia. Qed.

Lemma neg_min_int : Int.neg Int.min_int = Int.min_int.
Proof. reflexivity. Qed.

Lemma add_exact a b : Int.in_range (a + b) → Int.add a b = a + b.
Proof. apply wrap_in_range. Qed.

Lemma sub_exact a b : Int.in_range (a - b) → Int.sub a b = a - b.
Proof. apply wrap_in_range. Qed.

Section Sums.

Variable f : Z → Z.

Lemma msum_empty : msum f ∅ = 0.
Proof. apply map_fold_empty. Qed.

Lemma msum_insert_fresh (m : counts) k v :
  m !! k = None → msum f (<[k := v]> m) = f v + msum f m.
Proof.
  intros Hk. unfold msum.
  rewrite map_fold_insert_L; [done| |done].
  intros. lia.
Qed.

Lemma msum_delete (m : counts) k v :
  m !! k = Some v → msum f (delete k m) = msum f m - f v.
Proof.
  intros Hk. unfold msum.
  rewrite (map_fold_delete_L _ _ k v m); [lia| |done].
  intros. lia.
Qed.

Lemma msum_insert (m : counts) k v :
  msum f (<[k := v]> m) = msum f m - from_option f 0 (m !! k) + f v.
Proof.
  destruct (m !! k) as [w|] eqn:Hk; simpl.
  - rewrite <- insert_delete_eq.
    rewrite msum_insert_fresh by apply lookup_delete_eq.
    rewrite (msum_delete m k w) by done. lia.
  - rewrite msum_insert_fresh by done. lia.
Qed.

Lemma msum_union (m1 m2 : counts) :
  m1 ##ₘ m2 → msum f (m1 ∪ m2) = msum f m1 + msum f m2.
Proof.
  induction m1 as [|k v m1 Hk IH] using map_ind; intros Hdisj.
  - by rewrite (left_id_L ∅ (∪)), msum_empty.
  - apply map_disjoint_insert_l in Hdisj as [Hk2 Hdisj].
    rewrite <- insert_union_l.
    rewrite !msum_insert_fresh; [rewrite IH by done; lia|done|].
    apply lookup_union_None. done.
Qed.

End Sums.

Lemma msum_ext (f1 f2 : Z → Z) (c : Z) (m : counts) :
  (∀ v, f1 v = c * f2 v) → msum f1 m = c * msum f2 m.
Proof.
  intros Hf. induction m as [|k v m Hk IH] using map_ind.
  - rewrite !msum_empty. lia.
  - rewrite !msum_insert_fresh by done. rewrite IH, Hf. lia.
Qed.

Lemma msum_fmap (f g : Z → Z) (m : counts) :
  msum f (g <$> m) = msum (f ∘ g) m.
Proof.
  induction m as [|k v m Hk IH] using map_ind.
  - by rewrite fmap_empty, !msum_empty.
  - rewrite fmap_insert.
    rewrite !msum_insert_fresh; [by rewrite IH|done|].
    by rewrite lookup_fmap, Hk.
Qed.

Lemma total_empty : total ∅ = 0.
Proof. apply msum_empty. Qed.

Lemma total_insert_fresh (m : counts) k v :
  m !! k = None → total (<[k := v]> m) = v + total m.
Proof. apply msum_insert_fresh. Qed.

Lemma total_insert (m : counts) k v :
  total (<[k := v]> m) = total m - default 0 (m !! k) + v.
Proof. unfold total. rewrite msum_insert. by destruct (m !! k). Qed.

Lemma total_delete (m : counts) k v :
  m !! k = Some v → total (delete k m) = total m - v.
Proof. intros Hk. unfold total. by rewrite (msum_delete _ _ _ _ Hk). Qed.

(** Uncovered minus unused is the negated sum of the deltas. *)
Lemma uncovered_unused (m : counts) : uncovered m - unused m = - total m.
Proof.
  unfold uncovered, unused, total.
  induction m as [|k v m Hk IH] using map_ind.
  - rewrite !msum_empty. lia.
  - rewrite !msum_insert_fresh by done.
    unfold id at 1. repeat case_bool_decide; lia.
Qed.

(** ** What each pass computes *)

(** A loop that, at each key of [M], rewrites the entry of the
    accumulator at that same key. *)
Lemma foldl_put (F : instanceInfo → Z → option Z → Z) (M : counts)
    (l : list instanceInfo) :
  NoDup l →
  ∀ (O : counts) k',
    foldl (λ out k, match M !! k with
                    | Some v => <[k := F k v (out !! k)]> out
                    | None => out
                    end) O l !! k'
    = if decide (k' ∈ l)
      then match M !! k' with
           | Some v => Some (F k' v (O !! k'))
           | None => O !! k'
           end
      else O !! k'.
Proof.
  induction 1 as [|k l Hk Hl IH]; intros O k'.
  - done.
  - cbn [foldl]. rewrite IH. destruct (decide (k' = k)) as [->|Hne].
    + rewrite decide_False by done. rewrite decide_True by left.
      destruct (M !! k); [|done]. by rewrite lookup_insert_eq.
    + assert (Hsame : match M !! k with
                      | Some v => <[k := F k v (O !! k)]> O
                      | None => O
                      end !! k' = O !! k').
      { destruct (M !! k); [|done]. by rewrite lookup_insert_ne. }
      rewrite Hsame.
      destruct (decide (k' ∈ l)) as [Hin|Hnin].
      * rewrite decide_True; [done|]. by right.
      * rewrite decide_False; [done|].
        intros [?|?]%elem_of_cons; done.
Qed.

Lemma elem_of_keys (m : counts) k : k ∈ keys m ↔ is_Some (m !! k).
Proof.
  unfold keys. rewrite list_elem_of_fmap. split.
  - intros [[k0 v] [-> Hin]]. apply elem_of_map_to_list in Hin. by exists v.
  - intros [v Hv]. exists (k, v). split; [done|]. by apply elem_of_map_to_list.
Qed.

Lemma NoDup_keys (m : counts) : NoDup (keys m).
Proof. apply NoDup_fst_map_to_list. Qed.

Section Passes.

Variable sched : nat → list instanceInfo → list instanceInfo.
Hypothesis Hfair : fair sched.

Lemma sched_NoDup site (m : counts) : NoDup (sched site (keys m)).
Proof using Hfair. rewrite (Hfair site). apply NoDup_keys. Qed.

Lemma elem_of_sched site (m : counts) k :
  k ∈ sched site (keys m) ↔ is_Some (m !! k).
Proof using Hfair. rewrite (Hfair site). apply elem_of_keys. Qed.

Lemma range_put (F : instanceInfo → Z → option Z → Z) site (M O : counts) k :
  foldl (λ out k, match M !! k with
                  | Some v => <[k := F k v (out !! k)]> out
                  | None => out
                  end) O (sched site (keys M)) !! k
  = match M !! k with
    | Some v => Some (F k v (O !! k))
    | None => O !! k
    end.
Proof using Hfair.
  rewrite foldl_put by apply sched_NoDup.
  destruct (decide (k ∈ sched site (keys M))) as [Hin|Hnin]; [done|].
  destruct (M !! k) eqn:HM; [|done].
  exfalso. apply Hnin, elem_of_sched. by rewrite HM.
Qed.

Lemma seed_pass_lookup (running : counts) k :
  seed_pass sched running !! k = Int.neg <$> running !! k.
Proof using Hfair.
  unfold seed_pass.
  rewrite (range_put (λ _ v _, Int.neg v) 1%nat running ∅ k).
  by destruct (running !! k).
Qed.

Lemma zone_pass_lookup (az out : counts) k :
  zone_pass sched az out !! k
  = match az !! k with
    | Some v => Some (Int.add (default 0 (out !! k)) v)
    | None => out !! k
    end.
Proof using Hfair.
  unfold zone_pass.
  apply (range_put (λ _ v o, Int.add (default 0 o) v) 2%nat az out k).
Qed.

Lemma flush_pass_union (region out : counts) :
  flush_pass sched region out = region ∪ out.
Proof using Hfair.
  apply map_eq. intros k. unfold flush_pass.
  rewrite (range_put (λ _ v _, v) 4%nat region out k).
  rewrite lookup_union.
  destruct (region !! k), (out !! k); done.
Qed.

Lemma zoned_lookup (running az : counts) k :
  zoned sched running az !! k
  = match az !! k with
    | Some v => Some (Int.add (default 0 (Int.neg <$> running !! k)) v)
    | None => Int.neg <$> running !! k
    end.
Proof using Hfair.
  unfold zoned. rewrite zone_pass_lookup. by rewrite seed_pass_lookup.
Qed.

End Passes.

(** ** The borrowing loop *)

(** The three ways through the loop body. *)
Lemma borrow_step_cases k v (s : counts * counts) :
  ((0 ≤ v ∨ s.2 !! strip k = None) ∧ borrow_step k v s = s)
  ∨ (∃ v2, v < 0 ∧ s.2 !! strip k = Some v2 ∧ v2 ≤ Int.neg v ∧
       borrow_step k v s = (<[k := Int.add v v2]> s.1, delete (strip k) s.2))
  ∨ (∃ v2, v < 0 ∧ s.2 !! strip k = Some v2 ∧ Int.neg v < v2 ∧
       borrow_step k v s
       = (<[k := Int.add v (Int.sub v2 (Int.neg v))]> s.1,
          <[strip k := Int.sub v2 (Int.sub v2 (Int.neg v))]> s.2)).
Proof.
  unfold borrow_step. case_bool_decide as Hv; [left; auto|].
  destruct (s.2 !! strip k) as [v2|] eqn:Hv2; [|left; auto].
  simpl. case_bool_decide as Hcmp.
  - right; left. exists v2. repeat split; [lia|done].
  - right; right. exists v2. repeat split; lia.
Qed.

Lemma foldl_visit_ind (P : counts * counts → Prop) :
  (∀ s k, P s → P (visit s k)) →
  ∀ l s, P s → P (foldl visit s l).
Proof.
  intros Hstep l. induction l as [|k l IH]; intros s Hs; simpl; [done|].
  apply IH, Hstep, Hs.
Qed.

(** Visiting [k] rewrites [out] at [k] at most and the pool at [strip k]
    at most. *)
Lemma visit_out_frame (s : counts * counts) k k' :
  k' ≠ k → (visit s k).1 !! k' = s.1 !! k'.
Proof.
  intros Hne. unfold visit. destruct (s.1 !! k) as [v|]; [|done].
  destruct (borrow_step_cases k v s)
    as [[_ ->]|[(v2 & _ & _ & _ & ->)|(v2 & _ & _ & _ & ->)]];
    [done|simpl; by rewrite lookup_insert_ne..].
Qed.

Lemma visit_pool_frame (s : counts * counts) k k' :
  k' ≠ strip k → (visit s k).2 !! k' = s.2 !! k'.
Proof.
  intros Hne. unfold visit. destruct (s.1 !! k) as [v|]; [|done].
  destruct (borrow_step_cases k v s)
    as [[_ ->]|[(v2 & _ & _ & _ & ->)|(v2 & _ & _ & _ & ->)]]; [done|simpl..].
  - by rewrite lookup_delete_ne.
  - by rewrite lookup_insert_ne.
Qed.

(** A key that holds no deficit is passed over. *)
Lemma visit_skip (s : counts * counts) k :
  (∀ v, s.1 !! k = Some v → 0 ≤ v) → visit s k = s.
Proof.
  intros Hk. unfold visit. destruct (s.1 !! k) as [v|] eqn:Hv; [|done].
  unfold borrow_step. rewrite bool_decide_eq_true_2; [done|]. by apply Hk.
Qed.

Lemma visit_keeps (s : counts * counts) k k' :
  (∀ v, s.1 !! k' = Some v → 0 ≤ v) → (visit s k).1 !! k' = s.1 !! k'.
Proof.
  intros Hk'. destruct (decide (k' = k)) as [->|Hne].
  - by rewrite visit_skip.
  - by apply visit_out_frame.
Qed.

Lemma borrow_loop_keeps (l : list instanceInfo) (s : counts * counts) k' :
  (∀ v, s.1 !! k' = Some v → 0 ≤ v) →
  (foldl visit s l).1 !! k' = s.1 !! k'.
Proof.
  intros Hk'.
  apply (foldl_visit_ind (λ s', s'.1 !! k' = s.1 !! k')); [|done].
  intros s' k Heq. rewrite <- Heq. apply visit_keeps. by rewrite Heq.
Qed.

Lemma visit_zone_keyed (s : counts * counts) k :
  zone_keyed s.1 → zone_keyed (visit s k).1.
Proof.
  intros Hz. unfold visit. destruct (s.1 !! k) as [v|] eqn:Hv; [|done].
  pose proof (map_Forall_lookup_1 _ _ _ _ Hz Hv) as Hk. simpl in Hk.
  destruct (borrow_step_cases k v s)
    as [[_ ->]|[(v2 & _ & _ & _ & ->)|(v2 & _ & _ & _ & ->)]];
    [done|simpl; by apply map_Forall_insert_2..].
Qed.

Lemma visit_region_keyed (s : counts * counts) k :
  region_keyed s.2 → region_keyed (visit s k).2.
Proof.
  intros Hz. unfold visit. destruct (s.1 !! k) as [v|] eqn:Hv; [|done].
  destruct (borrow_step_cases k v s)
    as [[_ ->]|[(v2 & _ & _ & _ & ->)|(v2 & _ & _ & _ & ->)]]; [done|simpl..].
  - by apply map_Forall_delete.
  - by apply map_Forall_insert_2.
Qed.

Lemma visit_balanced C (s : counts * counts) k :
  balanced C s → balanced C (visit s k).
Proof.
  intros (Hd & Hc & Hsum). unfold visit.
  destruct (s.1 !! k) as [v|] eqn:Hv; [|done].
  pose proof (map_Forall_lookup_1 _ _ _ _ Hd Hv) as Hvr. simpl in Hvr.
  destruct (borrow_step_cases k v s)
    as [[_ ->]|[(v2 & Hneg & Hv2 & Hcmp & ->)|(v2 & Hneg & Hv2 & Hcmp & ->)]];
    [done|..];
    pose proof (map_Forall_lookup_1 _ _ _ _ Hc Hv2) as Hv2r; simpl in Hv2r;
    rewrite neg_exact in * by done.
  - assert (Hadd : Int.add v v2 = v + v2).
    { apply add_exact. int_simpl. lia. }
    rewrite Hadd. split_and!; simpl.
    + apply map_Forall_insert_2; [|done]. int_simpl. lia.
    + by apply map_Forall_delete.
    + rewrite total_insert, Hv, (total_delete _ _ _ Hv2). simpl. lia.
  - assert (Hn : Int.sub v2 (- v) = v2 + v).
    { rewrite sub_exact; [lia|]. int_simpl. lia. }
    rewrite Hn.
    assert (Hadd : Int.add v (v2 + v) = v + (v2 + v)).
    { apply add_exact. int_simpl. lia. }
    assert (Hsub : Int.sub v2 (v2 + v) = - v).
    { rewrite sub_exact; [lia|]. int_simpl. lia. }
    rewrite Hadd, Hsub. split_and!; simpl.
    + apply map_Forall_insert_2; [|done]. int_simpl. lia.
    + apply map_Forall_insert_2; [|done]. int_simpl. lia.
    + rewrite !total_insert, Hv, Hv2. simpl. lia.
Qed.

(** ** The mapping after the zone pass *)

Lemma total_opp (m : counts) : total (Z.opp <$> m) = - total m.
Proof.
  unfold total. rewrite msum_fmap.
  rewrite (msum_ext _ id (-1)); [lia|]. intros v. unfold id. simpl. lia.
Qed.

(** A map that adds [Y] onto [X] key by key sums to both. *)
Lemma total_added (X Y : counts) :
  ∀ M : counts,
    (∀ k, M !! k = match Y !! k with
                   | Some v => Some (default 0 (X !! k) + v)
                   | None => X !! k
                   end) →
    total M = total X + total Y.
Proof.
  induction Y as [|k v Y Hk IH] using map_ind; intros M HM.
  - replace M with X.
    + rewrite total_empty. lia.
    + apply map_eq. intros k. by rewrite HM, lookup_empty.
  - set (M' := partial_alter (λ _, X !! k) k M).
    assert (HM' : total M' = total X + total Y).
    { apply IH. intros k'. subst M'.
      destruct (decide (k' = k)) as [->|Hne].
      - by rewrite lookup_partial_alter_eq, Hk.
      - rewrite lookup_partial_alter_ne by done.
        rewrite HM. by rewrite lookup_insert_ne. }
    assert (HMk : M = <[k := default 0 (X !! k) + v]> M').
    { apply map_eq. intros k'. subst M'.
      destruct (decide (k' = k)) as [->|Hne].
      - by rewrite lookup_insert_eq, HM, lookup_insert_eq.
      - rewrite lookup_insert_ne by done.
        by rewrite lookup_partial_alter_ne. }
    rewrite HMk, total_insert.
    replace (M' !! k) with (X !! k)
      by (subst M'; by rewrite lookup_partial_alter_eq).
    rewrite (total_insert_fresh Y) by done. lia.
Qed.

Section Zoned.

Variable sched : nat → list instanceInfo → list instanceInfo.
Hypothesis Hfair : fair sched.
Variables running az : counts.
Hypothesis Hrun : counts_ok running.
Hypothesis Haz : counts_ok az.

(** With counts as inputs the first two passes compute, exactly, the
    reservations of the key minus its running instances. *)
Lemma zoned_exact k :
  zoned sched running az !! k
  = match az !! k with
    | Some v => Some (default 0 (Z.opp <$> running !! k) + v)
    | None => Z.opp <$> running !! k
    end.
Proof using Hfair Hrun Haz.
  rewrite zoned_lookup by done.
  assert (Hneg : Int.neg <$> running !! k = Z.opp <$> running !! k).
  { destruct (running !! k) as [w|] eqn:Hw; [|done]. simpl.
    pose proof (map_Forall_lookup_1 _ _ _ _ Hrun Hw) as Hwr. simpl in Hwr.
    rewrite neg_exact; [done|]. int_simpl. lia. }
  rewrite Hneg. destruct (az !! k) as [v|] eqn:Hv; [|done].
  pose proof (map_Forall_lookup_1 _ _ _ _ Haz Hv) as Hvr. simpl in Hvr.
  f_equal. apply add_exact.
  destruct (running !! k) as [w|] eqn:Hw; simpl.
  - pose proof (map_Forall_lookup_1 _ _ _ _ Hrun Hw) as Hwr. simpl in Hwr.
    int_simpl. lia.
  - int_simpl. lia.
Qed.

Lemma zoned_value k v :
  zoned sched running az !! k = Some v →
  v = default 0 (az !! k) - default 0 (running !! k).
Proof using Hfair Hrun Haz.
  rewrite zoned_exact.
  destruct (az !! k), (running !! k); simpl; intros; simplify_eq; lia.
Qed.

Lemma zoned_deltas_ok : deltas_ok (zoned sched running az).
Proof using Hfair Hrun Haz.
  intros k v Hk. simpl. rewrite zoned_exact in Hk.
  destruct (az !! k) as [x|] eqn:Hx, (running !! k) as [w|] eqn:Hw;
    simpl in Hk; simplify_eq;
    try (pose proof (map_Forall_lookup_1 _ _ _ _ Haz Hx) as Hxr; simpl in Hxr);
    try (pose proof (map_Forall_lookup_1 _ _ _ _ Hrun Hw) as Hwr; simpl in Hwr);
    int_simpl; lia.
Qed.

Lemma zoned_total :
  total (zoned sched running az) = total az - total running.
Proof using Hfair Hrun Haz.
  rewrite (total_added (Z.opp <$> running) az).
  - rewrite total_opp. lia.
  - intros k. rewrite zoned_exact. by rewrite lookup_fmap.
Qed.

Lemma zoned_zone_keyed :
  zone_keyed running → zone_keyed az → zone_keyed (zoned sched running az).
Proof using Hfair.
  intros Hzr Hza k v Hk. simpl. rewrite zoned_lookup in Hk by done.
  destruct (az !! k) as [x|] eqn:Hx.
  - apply (map_Forall_lookup_1 _ _ _ _ Hza Hx).
  - destruct (running !! k) as [w|] eqn:Hw; [|done].
    apply (map_Forall_lookup_1 _ _ _ _ Hzr Hw).
Qed.

End Zoned.

(** ** The reconciler as a whole *)

Section Reconciled.

Variable sched : nat → list instanceInfo → list instanceInfo.
Hypothesis Hfair : fair sched.
Variables running az region : counts.

#[local] Abbreviation B := (borrowed sched running az region).

Lemma reconcile_result :
  call_reconcile sched running az region
  = (B.2 ∪ B.1, B.2).
Proof using Hfair.
  rewrite call_reconcile_maps. unfold reconcile_maps.
  by rewrite flush_pass_union.
Qed.

Lemma borrowed_keeps k :
  (∀ v, zoned sched running az !! k = Some v → 0 ≤ v) →
  B.1 !! k = zoned sched running az !! k.
Proof. intros Hk. unfold borrowed, borrow_pass. by apply borrow_loop_keeps. Qed.

Lemma borrowed_keyed :
  zone_keyed running → zone_keyed az → region_keyed region →
  zone_keyed B.1 ∧ region_keyed B.2.
Proof using Hfair.
  intros Hzr Hza Hzg. unfold borrowed, borrow_pass.
  apply (foldl_visit_ind (λ s, zone_keyed s.1 ∧ region_keyed s.2)).
  - intros s k [??]. split; [by apply visit_zone_keyed|by apply visit_region_keyed].
  - split; [by apply zoned_zone_keyed|done].
Qed.

Lemma borrowed_disjoint :
  zone_keyed running → zone_keyed az → region_keyed region →
  B.2 ##ₘ B.1.
Proof using Hfair.
  intros Hzr Hza Hzg.
  destruct (borrowed_keyed Hzr Hza Hzg) as [Hz1 Hz2].
  apply map_disjoint_spec. intros k x y Hx Hy.
  pose proof (map_Forall_lookup_1 _ _ _ _ Hz1 Hy) as H1.
  pose proof (map_Forall_lookup_1 _ _ _ _ Hz2 Hx) as H2.
  simpl in *. done.
Qed.

Lemma borrowed_balanced :
  counts_ok running → counts_ok az → counts_ok region →
  balanced (total az - total running + total region) B.
Proof using Hfair.
  intros Hr Ha Hg. unfold borrowed, borrow_pass.
  apply foldl_visit_ind; [intros s k; apply visit_balanced|].
  split_and!; simpl; [by apply zoned_deltas_ok|done|].
  by rewrite zoned_total.
Qed.

(** With counts as inputs every value of the result is a delta whose
    negation is exact. *)
Lemma result_deltas_ok :
  counts_ok running → counts_ok az → counts_ok region →
  deltas_ok (call_reconcile sched running az region).1.
Proof using Hfair.
  intros Hr Ha Hg. rewrite reconcile_result. simpl.
  destruct (borrowed_balanced Hr Ha Hg) as (Hd & Hc & _).
  intros k v Hk. simpl. apply lookup_union_Some_raw in Hk as [Hk|[_ Hk]].
  - pose proof (map_Forall_lookup_1 _ _ _ _ Hc Hk) as Hv. simpl in Hv.
    int_simpl. lia.
  - apply (map_Forall_lookup_1 _ _ _ _ Hd Hk).
Qed.

End Reconciled.

(** ** Schedules on short key lists *)

Lemma in_order_fair : fair in_order.
Proof. intros site l. reflexivity. Qed.

Lemma backwards_fair : fair backwards.
Proof. intros site l. apply reverse_Permutation. Qed.

(** The schedule matters: when two zones compete for one pool the result
    depends on which is visited first. *)
Lemma borrowing_order_matters :
  call_reconcile in_order
    {[m3_medium_1a := 2; m3_medium_1b := 2]} ∅ {[m3_medium := 3]}
  ≠ call_reconcile backwards
      {[m3_medium_1a := 2; m3_medium_1b := 2]} ∅ {[m3_medium := 3]}.
Proof. by_evaluation. Qed.

Lemma sched_small sched site (l : list instanceInfo) :
  fair sched → (length l ≤ 1)%nat → sched site l = l.
Proof.
  intros Hfair Hl. specialize (Hfair site l).
  destruct l as [|x [|y l]]; simpl in Hl; [| |lia].
  - by apply Permutation_nil_r.
  - by apply Permutation_singleton_r.
Qed.

(** When no loop has more than one key to visit there is only one order. *)
Lemma reconcile_maps_small sched (running az region : counts) :
  fair sched →
  (length (keys running) ≤ 1)%nat →
  (length (keys az) ≤ 1)%nat →
  (length (keys (zone_pass in_order az (seed_pass in_order running))) ≤ 1)%nat →
  (length (keys (borrow_pass in_order
     (zone_pass in_order az (seed_pass in_order running), region)).2) ≤ 1)%nat →
  reconcile_maps sched running az region
  = reconcile_maps in_order running az region.
Proof.
  intros Hfair H1 H2 H3 H4.
  assert (E1 : seed_pass sched running = seed_pass in_order running).
  { unfold seed_pass. by rewrite (sched_small sched). }
  assert (E2 : ∀ o, zone_pass sched az o = zone_pass in_order az o).
  { intros o. unfold zone_pass. by rewrite (sched_small sched). }
  assert (E3 : borrow_pass sched
                 (zone_pass in_order az (seed_pass in_order running), region)
             = borrow_pass in_order
                 (zone_pass in_order az (seed_pass in_order running), region)).
  { unfold borrow_pass. by rewrite (sched_small sched). }
  unfold reconcile_maps. rewrite E1, E2, E3.
  unfold flush_pass. by rewrite (sched_small sched).
Qed.

(** The surplus branch of the loop body, in exact arithmetic: the key gets
    [have - need] added and the pool keeps [need]. *)
Lemma visit_surplus (s : counts * counts) k v have :
  s.1 !! k = Some v → s.2 !! strip k = Some have →
  - Int.max_int ≤ v → v < 0 → - v < have → have ≤ Int.max_int →
  visit s k = (<[k := v + (have - - v)]> s.1, <[strip k := - v]> s.2).
Proof.
  intros Hv Hhave Hmin Hneg Hgt Hmax. unfold visit. rewrite Hv.
  destruct (borrow_step_cases k v s)
    as [[[?|Hnone] _]|[(v2 & _ & Hv2 & Hle & _)|(v2 & _ & Hv2 & _ & ->)]].
  - lia.
  - congruence.
  - assert (v2 = have) by congruence. subst v2.
    rewrite neg_exact in Hle by (int_simpl; lia). lia.
  - assert (v2 = have) by congruence. subst v2.
    rewrite neg_exact by (int_simpl; lia).
    assert (Hn : Int.sub have (- v) = have - - v).
    { apply sub_exact. int_simpl. lia. }
    rewrite Hn. rewrite add_exact by (int_simpl; lia).
    rewrite sub_exact by (int_simpl; lia).
    do 2 f_equal. lia.
Qed.

(** A map that obeys both key disciplines has no key. *)
Lemma keyed_both_empty (m : counts) : zone_keyed m → region_keyed m → m = ∅.
Proof.
  intros Hz Hr. apply map_empty. intros k.
  destruct (m !! k) as [v|] eqn:Hk; [|done].
  pose proof (map_Forall_lookup_1 _ _ _ _ Hz Hk) as H1.
  pose proof (map_Forall_lookup_1 _ _ _ _ Hr Hk) as H2.
  simpl in *. done.
Qed.

(** With nothing in the pool the borrowing loop leaves it empty. *)
Lemma borrow_pass_no_pool sched (out : counts) :
  (borrow_pass sched (out, ∅)).2 = ∅.
Proof.
  unfold borrow_pass.
  apply (foldl_visit_ind (λ s, s.2 = ∅)); [|done].
  intros s k Hs. unfold visit. destruct (s.1 !! k) as [v|]; [|done].
  destruct (borrow_step_cases k v s)
    as [[_ ->]|[(v2 & _ & Hv2 & _)|(v2 & _ & Hv2 & _)]]; [done|..];
    by rewrite Hs, lookup_empty in Hv2.
Qed.

(** ** Properties of [reconcile] *)

(** C1.  The surplus branch of the borrowing loop ([have > need]) adds
    [have - need] to the deficit and leaves [need] in the pool, where the
    specification asks for a closed deficit and a pool of [have - need].
    On the input of the borrowing example (three running m3.medium in
    us-east-1a, a region pool of five) the result holds -1 at the zone key
    and +3 at the region key, under every schedule, where the
    specification asks for no zone entry and +2. *)
Theorem C1_surplus_branch_on_example sched :
  fair sched →
  (∀ (s : counts * counts) k v have,
     s.1 !! k = Some v → s.2 !! strip k = Some have →
     - Int.max_int ≤ v → v < 0 → - v < have → have ≤ Int.max_int →
     visit s k = (<[k := v + (have - - v)]> s.1, <[strip k := - v]> s.2))
  ∧ call_reconcile sched {[m3_medium_1a := 3]} ∅ {[m3_medium := 5]}
    = ({[m3_medium_1a := -1; m3_medium := 3]}, {[m3_medium := 3]}).
Proof.
  intros Hfair. split; [apply visit_surplus|].
  rewrite call_reconcile_maps.
  rewrite reconcile_maps_small; [|done|vm_compute; lia..].
  by_evaluation.
Qed.

Lemma C1_surplus_branch_on_example_witness :
  call_reconcile in_order {[m3_medium_1a := 3]} ∅ {[m3_medium := 5]}
  = ({[m3_medium_1a := -1; m3_medium := 3]}, {[m3_medium := 3]}).
Proof.
  exact (proj2 (C1_surplus_branch_on_example in_order in_order_fair)).
Defined.

(** C2.  Conservation: for inputs of the data model (counts, zones
    populated in the running and zone-reservation keys, empty in the region
    keys) the uncovered total minus the unused total of the result equals
    the running total minus all reservations, under every schedule. *)
Theorem C2_conservation sched (running az region : counts) :
  fair sched →
  counts_ok running → counts_ok az → counts_ok region →
  zone_keyed running → zone_keyed az → region_keyed region →
  uncovered (call_reconcile sched running az region).1
    - unused (call_reconcile sched running az region).1
  = total running - (total az + total region).
Proof.
  intros Hfair Hr Ha Hg Hzr Hza Hzg.
  rewrite uncovered_unused, reconcile_result by done. simpl.
  unfold total at 1. rewrite msum_union by by apply borrowed_disjoint.
  destruct (borrowed_balanced sched Hfair running az region Hr Ha Hg)
    as (_ & _ & Hsum).
  unfold total in *. lia.
Qed.

Lemma C2_conservation_witness :
  uncovered (call_reconcile in_order
               {[m3_medium_1a := 3]} ∅ {[m3_medium := 5]}).1
    - unused (call_reconcile in_order
                {[m3_medium_1a := 3]} ∅ {[m3_medium := 5]}).1
  = total {[m3_medium_1a := 3]} - (total ∅ + total {[m3_medium := 5]}).
Proof.
  apply (C2_conservation in_order); [exact in_order_fair|by_evaluation..].
Defined.

(** C3.  When the pool does not exceed the deficit ([need >= have > 0])
    the loop body adds the whole pool to the key and deletes the pool
    entry of its type; on the example (five running, a pool of two) the
    result is the single entry -3 at the zone key, the pool is empty, and
    the report has the one uncovered row of count 3 and no unused row. *)
Theorem C3_pool_consumed sched :
  fair sched →
  (∀ (s : counts * counts) k v have,
     s.1 !! k = Some v → s.2 !! strip k = Some have →
     Int.in_range v → v < 0 → 0 < have → have ≤ Int.neg v →
     visit s k = (<[k := v + have]> s.1, delete (strip k) s.2))
  ∧ call_reconcile sched {[m3_medium_1a := 5]} ∅ {[m3_medium := 2]}
    = ({[m3_medium_1a := -3]}, ∅)
  ∧ report sched
      (call_reconcile sched {[m3_medium_1a := 5]} ∅ {[m3_medium := 2]}).1
    = ([{| RType := "m3.medium"; RAZ := "us-east-1a"; Count := 3 |}], []).
Proof.
  intros Hfair.
  assert (Hex : call_reconcile sched {[m3_medium_1a := 5]} ∅ {[m3_medium := 2]}
                = ({[m3_medium_1a := -3]}, ∅)).
  { rewrite call_reconcile_maps.
    rewrite reconcile_maps_small; [|done|vm_compute; lia..].
    by_evaluation. }
  split_and!; [|done|].
  - intros s k v have Hv Hhave Hrange Hneg Hpos Hcmp.
    unfold visit. rewrite Hv.
    assert (Hv' : - Int.max_int ≤ v).
    { destruct (decide (v = Int.min_int)) as [->|Hne].
      - exfalso. rewrite neg_min_int in Hcmp. int_simpl. lia.
      - int_simpl. lia. }
    rewrite neg_exact in Hcmp by lia.
    destruct (borrow_step_cases k v s)
      as [[[?|Hnone] _]|[(v2 & _ & Hv2 & _ & ->)|(v2 & _ & Hv2 & Hgt & _)]].
    + lia.
    + congruence.
    + simplify_eq. rewrite add_exact; [done|]. int_simpl. lia.
    + simplify_eq. rewrite neg_exact in Hgt by lia. lia.
  - rewrite Hex. unfold report, collect. cbn [fst].
    rewrite (sched_small sched) by (done || (vm_compute; lia)).
    by vm_compute.
Qed.

Lemma C3_pool_consumed_witness :
  call_reconcile in_order {[m3_medium_1a := 5]} ∅ {[m3_medium := 2]}
  = ({[m3_medium_1a := -3]}, ∅).
Proof.
  exact (proj1 (proj2 (C3_pool_consumed in_order in_order_fair))).
Defined.

(** C5.  Zone before region: a key whose running count does not exceed its
    zone-scoped reservations ([m[k]] reads as zero where the key is
    absent) has no negative entry in the result, whatever the region map
    holds, and the borrowing loop leaves the whole state, pool included,
    as it is when it visits that key. *)
Theorem C5_zone_before_region sched (running az region : counts) k :
  fair sched →
  counts_ok running → counts_ok az → counts_ok region →
  default 0 (running !! k) ≤ default 0 (az !! k) →
  (∀ v, (call_reconcile sched running az region).1 !! k = Some v → 0 ≤ v)
  ∧ (∀ s : counts * counts,
       s.1 !! k = zoned sched running az !! k → visit s k = s).
Proof.
  intros Hfair Hr Ha Hg Hle.
  assert (Hk : ∀ v, zoned sched running az !! k = Some v → 0 ≤ v).
  { intros v Hv. apply (zoned_value sched Hfair running az Hr Ha) in Hv. lia. }
  split.
  - intros v. rewrite reconcile_result by done. simpl.
    intros [Hv|[_ Hv]]%lookup_union_Some_raw.
    + destruct (borrowed_balanced sched Hfair running az region Hr Ha Hg)
        as (_ & Hc & _).
      pose proof (map_Forall_lookup_1 _ _ _ _ Hc Hv) as Hvr. simpl in Hvr.
      int_simpl. lia.
    + rewrite borrowed_keeps in Hv by done. by apply Hk.
  - intros s Hs. apply visit_skip. intros v. rewrite Hs. apply Hk.
Qed.

Lemma C5_zone_before_region_witness :
  (∀ v, (call_reconcile in_order {[m3_medium_1a := 3]} {[m3_medium_1a := 3]}
           {[m3_medium := 5]}).1 !! m3_medium_1a = Some v → 0 ≤ v)
  ∧ (∀ s : counts * counts,
       s.1 !! m3_medium_1a
       = zoned in_order {[m3_medium_1a := 3]} {[m3_medium_1a := 3]}
           !! m3_medium_1a →
       visit s m3_medium_1a = s).
Proof.
  apply (C5_zone_before_region in_order
           {[m3_medium_1a := 3]} {[m3_medium_1a := 3]} {[m3_medium := 5]}
           m3_medium_1a);
    [exact in_order_fair|by_evaluation..].
Defined.

(** C9.  Frame: on any store in which the three arguments denote maps,
    [reconcile] leaves the running and zone-reservation maps as they were,
    and with them every object other than the region map and the fresh
    result.  This needs the region map to be an object of its own, or the
    key discipline of the data model, under which a map shared with the
    region argument can only be empty.  The region map itself can change
    (on the example of the insufficient pool its only entry is deleted). *)
Theorem C9_inputs_unchanged sched (h : heap) (r a g : loc) (R A G : counts) :
  h !! r = Some R → h !! a = Some A → h !! g = Some G →
  (g ≠ r ∧ g ≠ a) ∨ (zone_keyed R ∧ zone_keyed A ∧ region_keyed G) →
  (reconcile sched r a g h).2 !! r = Some R
  ∧ (reconcile sched r a g h).2 !! a = Some A
  ∧ (∀ l, l ≠ g → l ≠ (reconcile sched r a g h).1 →
       (reconcile sched r a g h).2 !! l = h !! l)
  ∧ (call_reconcile in_order {[m3_medium_1a := 5]} ∅ {[m3_medium := 2]}).2
    ≠ {[m3_medium := 2]}.
Proof.
  intros Hr Ha Hg Hsep.
  rewrite (reconcile_on_heap sched h r a g R A G) by done. cbn [fst snd].
  assert (Hfresh : ∀ l x, h !! l = Some x → fresh (dom h) ≠ l).
  { intros l x Hl Heq. apply (is_fresh (dom h)). rewrite Heq.
    by apply elem_of_dom. }
  assert (Hkept : ∀ l X, h !! l = Some X →
            g ≠ l ∨ (zone_keyed X ∧ region_keyed G) →
            <[fresh (dom h) := (reconcile_maps sched R A G).1]>
              (<[g := (reconcile_maps sched R A G).2]> h) !! l = Some X).
  { intros l X Hl Hcase. rewrite lookup_insert_ne by eauto.
    destruct (decide (g = l)) as [->|Hne]; [|by rewrite lookup_insert_ne].
    destruct Hcase as [?|[Hz Hk]]; [done|].
    assert (X = G) by congruence. subst X.
    rewrite (keyed_both_empty G Hz Hk), lookup_insert_eq.
    unfold reconcile_maps. cbn [snd]. by rewrite borrow_pass_no_pool. }
  split_and!.
  - apply Hkept; [done|]. destruct Hsep as [[? ?]|(? & ? & ?)]; eauto.
  - apply Hkept; [done|]. destruct Hsep as [[? ?]|(? & ? & ?)]; eauto.
  - intros l Hlg Hlo. rewrite lookup_insert_ne by done.
    by rewrite lookup_insert_ne.
  - by_evaluation.
Qed.

Lemma C9_inputs_unchanged_witness :
  (reconcile in_order 0 1 2
     (<[2%nat := {[m3_medium := 2]}]>
        (<[1%nat := ∅]> {[0%nat := {[m3_medium_1a := 5]}]}))).2 !! 0%nat
  = Some {[m3_medium_1a := 5]}.
Proof.
  refine (proj1 (C9_inputs_unchanged in_order _ 0%nat 1%nat 2%nat
                   {[m3_medium_1a := 5]} ∅ {[m3_medium := 2]} _ _ _ _));
    [by_evaluation..|left; split; by_evaluation].
Defined.

(** C10.  Zone surplus stays put: for inputs with the key discipline of
    the data model, a key that the zone pass leaves at a value of zero or
    more holds exactly that value in the returned mapping; a visit of the
    borrowing loop rewrites the result at the visited key only and the pool
    at the region key of the visited type only. *)
Theorem C10_surplus_not_redistributed sched (running az region : counts) :
  fair sched →
  zone_keyed running → zone_keyed az → region_keyed region →
  (∀ k v, zoned sched running az !! k = Some v → 0 ≤ v →
     (call_reconcile sched running az region).1 !! k = Some v)
  ∧ (∀ (s : counts * counts) k k', k' ≠ k → (visit s k).1 !! k' = s.1 !! k')
  ∧ (∀ (s : counts * counts) k k',
       k' ≠ strip k → (visit s k).2 !! k' = s.2 !! k').
Proof.
  intros Hfair Hzr Hza Hzg. split_and!.
  - intros k v Hk Hv. rewrite reconcile_result by done. simpl.
    assert (Hkept : (borrowed sched running az region).1 !! k = Some v).
    { rewrite borrowed_keeps; [done|]. intros v'. rewrite Hk. by intros [= <-]. }
    rewrite lookup_union_r; [done|].
    destruct ((borrowed sched running az region).2 !! k) as [w|] eqn:Hw; [|done].
    exfalso.
    pose proof (borrowed_disjoint sched Hfair running az region Hzr Hza Hzg)
      as Hdisj.
    by apply (proj1 (map_disjoint_spec _ _) Hdisj k w v).
  - intros s k k'. apply visit_out_frame.
  - intros s k k'. apply visit_pool_frame.
Qed.

Lemma C10_surplus_not_redistributed_witness :
  (∀ k v,
     zoned in_order {[m3_medium_1a := 1]} {[m3_medium_1a := 3]} !! k
     = Some v →
     0 ≤ v →
     (call_reconcile in_order {[m3_medium_1a := 1]} {[m3_medium_1a := 3]}
        {[m3_medium := 5]}).1 !! k = Some v)
  ∧ (∀ (s : counts * counts) k k', k' ≠ k → (visit s k).1 !! k' = s.1 !! k')
  ∧ (∀ (s : counts * counts) k k',
       k' ≠ strip k → (visit s k).2 !! k' = s.2 !! k').
Proof.
  apply (C10_surplus_not_redistributed in_order
           {[m3_medium_1a := 1]} {[m3_medium_1a := 3]} {[m3_medium := 5]});
    [exact in_order_fair|by_evaluation..].
Defined.

(** ** The order on types *)

Lemma string_compare_refl s : String.compare s s = Eq.
Proof.
  induction s as [|c s IH]; simpl; [done|].
  unfold Ascii.compare. by rewrite N.compare_refl.
Qed.

Lemma string_compare_lt_trans a b c :
  String.compare a b = Lt → String.compare b c = Lt → String.compare a c = Lt.
Proof.
  revert b c. induction a as [|x a IH]; intros [|y b] [|z c]; simpl; try done.
  unfold Ascii.compare.
  destruct (N.compare_spec (Ascii.N_of_ascii x) (Ascii.N_of_ascii y)) as [Hxy|Hxy|Hxy];
    [|clear IH|done];
    destruct (N.compare_spec (Ascii.N_of_ascii y) (Ascii.N_of_ascii z)) as [Hyz|Hyz|Hyz];
    try done; intros H1 H2.
  - rewrite Hxy, Hyz, N.compare_refl. eauto.
  - rewrite Hxy. by rewrite (proj2 (N.compare_lt_iff _ _) Hyz).
  - rewrite <- Hyz. by rewrite (proj2 (N.compare_lt_iff _ _) Hxy).
  - assert (Hxz : (Ascii.N_of_ascii x < Ascii.N_of_ascii z)%N) by lia.
    by rewrite (proj2 (N.compare_lt_iff _ _) Hxz).
Qed.

Lemma ltb_irrefl s : String.ltb s s = false.
Proof. unfold String.ltb. by rewrite string_compare_refl. Qed.

Lemma ltb_asym a b : String.ltb a b = true → String.ltb b a = false.
Proof.
  unfold String.ltb. rewrite (String.compare_antisym b a).
  by destruct (String.compare a b).
Qed.

Lemma ltb_trans a b c :
  String.ltb a b = true → String.ltb b c = true → String.ltb a c = true.
Proof.
  unfold String.ltb.
  destruct (String.compare a b) eqn:Hab; try done.
  destruct (String.compare b c) eqn:Hbc; try done.
  by rewrite (string_compare_lt_trans a b c).
Qed.

Lemma ltb_total a b :
  String.ltb a b = false → String.ltb b a = false → a = b.
Proof.
  unfold String.ltb. rewrite (String.compare_antisym b a).
  destruct (String.compare a b) eqn:Hab; try done.
  intros _ _. by apply String.compare_eq_iff.
Qed.

#[global] Instance type_le_trans : Transitive type_le.
Proof.
  intros a b c Hab Hbc. unfold type_le, by_type in *.
  destruct (String.ltb (RType c) (RType a)) eqn:Hca; [|done].
  destruct (String.ltb (RType a) (RType b)) eqn:Hlt.
  - by rewrite (ltb_trans _ _ _ Hca Hlt) in Hbc.
  - rewrite <- (ltb_total _ _ Hlt Hab) in Hbc. congruence.
Qed.

(** ** The stable sort *)

Section Sorting.

Context {A : Type} (less : A → A → bool).
Hypothesis less_asym : ∀ a b, less a b = true → less b a = false.

Lemma insert_stable_perm x l : insert_stable less x l ≡ₚ x :: l.
Proof.
  induction l as [|y l IH]; simpl; [done|].
  destruct (less y x); [|done]. rewrite IH. apply Permutation_swap.
Qed.

Lemma SliceStable_perm l : SliceStable less l ≡ₚ l.
Proof.
  induction l as [|x l IH]; simpl; [done|].
  rewrite insert_stable_perm. by rewrite IH.
Qed.

Lemma insert_stable_hd x y l :
  less y x = true → HdRel (not_after less) y l → HdRel (not_after less) y (insert_stable less x l).
Proof using less_asym.
  intros Hyx Hhd. destruct l as [|z l]; simpl.
  - constructor. by apply less_asym.
  - destruct (less z x).
    + constructor. by inversion Hhd.
    + constructor. by apply less_asym.
Qed.

Lemma insert_stable_sorted x l :
  Sorted (not_after less) l → Sorted (not_after less) (insert_stable less x l).
Proof using less_asym.
  induction 1 as [|y l Hl IH Hhd]; simpl.
  - by repeat constructor.
  - destruct (less y x) eqn:Hyx.
    + constructor; [done|]. by apply insert_stable_hd.
    + constructor; [by constructor|]. by constructor.
Qed.

Lemma SliceStable_sorted l : Sorted (not_after less) (SliceStable less l).
Proof using less_asym.
  induction l as [|x l IH]; simpl; [constructor|].
  by apply insert_stable_sorted.
Qed.

(** Elements that [less] does not order keep their order: the sort does
    not change what a class of such elements looks like from outside. *)
Lemma insert_stable_filter (P : A → Prop) `{∀ a, Decision (P a)} x l :
  (∀ a b, P a → P b → less a b = false) →
  filter P (insert_stable less x l) = filter P (x :: l).
Proof.
  intros Hclass. induction l as [|y l IH]; simpl; [done|].
  destruct (less y x) eqn:Hyx; [|done].
  rewrite filter_cons, IH, !filter_cons.
  destruct (decide (P y)) as [Hy|Hy], (decide (P x)) as [Hx|Hx]; try done.
  by rewrite Hclass in Hyx.
Qed.

Lemma SliceStable_filter (P : A → Prop) `{∀ a, Decision (P a)} l :
  (∀ a b, P a → P b → less a b = false) →
  filter P (SliceStable less l) = filter P l.
Proof.
  intros Hclass. induction l as [|x l IH]; simpl; [done|].
  rewrite insert_stable_filter by done.
  by rewrite !filter_cons, IH.
Qed.

End Sorting.

Lemma by_type_asym a b : by_type a b = true → by_type b a = false.
Proof. apply ltb_asym. Qed.

Lemma SliceStable_by_type_sorted l :
  StronglySorted type_le (SliceStable by_type l).
Proof.
  apply Sorted_StronglySorted; [apply _|].
  apply (SliceStable_sorted by_type by_type_asym).
Qed.

Lemma SliceStable_by_type_stable t l :
  filter (λ r, RType r = t) (SliceStable by_type l)
  = filter (λ r, RType r = t) l.
Proof.
  apply SliceStable_filter. intros a b Ha Hb.
  unfold by_type. rewrite Ha, Hb. apply ltb_irrefl.
Qed.

(** ** The report sequences *)

Lemma collect_loop (result : counts) (l : list instanceInfo) :
  ∀ od un,
    foldl (λ '(onDemandInstances, unusedReservations) k,
      match result !! k with
      | Some v =>
          if bool_decide (v < 0) then
            (onDemandInstances
               ++ [{| RType := Type_ k; RAZ := AZ k; Count := Int.neg v |}],
             unusedReservations)
          else if bool_decide (0 < v) then
            (onDemandInstances,
             unusedReservations
               ++ [{| RType := Type_ k; RAZ := EmptyString; Count := v |}])
          else (onDemandInstances, unusedReservations)
      | None => (onDemandInstances, unusedReservations)
      end) (od, un) l
    = (od ++ omap (on_demand_of result) l, un ++ omap (unused_of result) l).
Proof.
  induction l as [|k l IH]; intros od un.
  - simpl. by rewrite !app_nil_r.
  - assert (E1 : omap (on_demand_of result) (k :: l)
                 = match on_demand_of result k with
                   | Some y => y :: omap (on_demand_of result) l
                   | None => omap (on_demand_of result) l
                   end) by done.
    assert (E2 : omap (unused_of result) (k :: l)
                 = match unused_of result k with
                   | Some y => y :: omap (unused_of result) l
                   | None => omap (unused_of result) l
                   end) by done.
    rewrite E1, E2. cbn [foldl]. clear E1 E2.
    destruct (on_demand_of result k) as [r1|] eqn:H1,
             (unused_of result k) as [r2|] eqn:H2;
      unfold on_demand_of, unused_of in H1, H2;
      destruct (result !! k) as [v|];
      repeat case_bool_decide; simplify_eq;
      rewrite IH; rewrite <- ?app_assoc; done.
Qed.

Lemma collect_omap sched (result : counts) :
  collect sched result
  = (omap (on_demand_of result) (sched 5%nat (keys result)),
     omap (unused_of result) (sched 5%nat (keys result))).
Proof. unfold collect. by rewrite collect_loop. Qed.

Lemma report_fst sched (result : counts) :
  (report sched result).1 = SliceStable by_type (collect sched result).1.
Proof. unfold report. by destruct (collect sched result). Qed.

Lemma report_snd sched (result : counts) :
  (report sched result).2 = SliceStable by_type (collect sched result).2.
Proof. unfold report. by destruct (collect sched result). Qed.

Lemma elem_of_on_demand sched (result : counts) row :
  fair sched →
  row ∈ (report sched result).1
  ↔ ∃ k v, result !! k = Some v ∧ v < 0 ∧
      row = {| RType := Type_ k; RAZ := AZ k; Count := Int.neg v |}.
Proof.
  intros Hfair. rewrite report_fst, SliceStable_perm, collect_omap. simpl.
  rewrite list_elem_of_omap. split.
  - intros (k & _ & Hk). unfold on_demand_of in Hk.
    destruct (result !! k) as [v|] eqn:Hv; [|done].
    case_bool_decide; [|done]. exists k, v. by simplify_eq.
  - intros (k & v & Hv & Hneg & ->). exists k. split.
    + apply elem_of_sched; [done|]. by rewrite Hv.
    + unfold on_demand_of. rewrite Hv. by rewrite bool_decide_eq_true_2.
Qed.

Lemma elem_of_unused sched (result : counts) row :
  fair sched →
  row ∈ (report sched result).2
  ↔ ∃ k v, result !! k = Some v ∧ 0 < v ∧
      row = {| RType := Type_ k; RAZ := EmptyString; Count := v |}.
Proof.
  intros Hfair. rewrite report_snd, SliceStable_perm, collect_omap. simpl.
  rewrite list_elem_of_omap. split.
  - intros (k & _ & Hk). unfold unused_of in Hk.
    destruct (result !! k) as [v|] eqn:Hv; [|done].
    repeat case_bool_decide; try done. exists k, v. by simplify_eq.
  - intros (k & v & Hv & Hpos & ->). exists k. split.
    + apply elem_of_sched; [done|]. by rewrite Hv.
    + unfold unused_of. rewrite Hv.
      rewrite bool_decide_eq_false_2 by lia.
      by rewrite bool_decide_eq_true_2.
Qed.

(** C4, on the mapping [reconcile] returns: not every entry is nonzero.
    A running count matched exactly by a zone-scoped reservation stays in
    the mapping with value zero. *)
Lemma C4_zero_entry_returned :
  ¬ (∀ k v,
       (call_reconcile in_order
          {[m3_medium_1a := 3]} {[m3_medium_1a := 3]} ∅).1 !! k = Some v →
       v ≠ 0).
Proof.
  intros Hall. apply (Hall m3_medium_1a 0); [|done]. by vm_compute.
Qed.

(** C4, amended.  The mapping [reconcile] returns may hold zero entries;
    [do] drops them when it derives the report.  For inputs that are
    counts, the rows of the uncovered report are exactly the negative
    entries of the mapping, with the magnitude as count, the rows of the
    unused report are exactly its positive entries, and every row has a
    count above zero: a key whose delta is zero has no row. *)
Theorem C4_reported_entries_nonzero sched (running az region : counts) :
  fair sched →
  counts_ok running → counts_ok az → counts_ok region →
  let result := (call_reconcile sched running az region).1 in
  ∀ row,
    (row ∈ (report sched result).1
     ↔ ∃ k v, result !! k = Some v ∧ v < 0 ∧
         row = {| RType := Type_ k; RAZ := AZ k; Count := - v |})
    ∧ (row ∈ (report sched result).2
       ↔ ∃ k v, result !! k = Some v ∧ 0 < v ∧
           row = {| RType := Type_ k; RAZ := EmptyString; Count := v |})
    ∧ (row ∈ (report sched result).1 ∨ row ∈ (report sched result).2 →
       0 < Count row).
Proof.
  intros Hfair Hr Ha Hg result row.
  pose proof (result_deltas_ok sched Hfair running az region Hr Ha Hg) as Hd.
  fold result in Hd.
  assert (Hod : row ∈ (report sched result).1
                ↔ ∃ k v, result !! k = Some v ∧ v < 0 ∧
                    row = {| RType := Type_ k; RAZ := AZ k; Count := - v |}).
  { rewrite elem_of_on_demand by done. split.
    - intros (k & v & Hv & Hneg & ->). exists k, v. split_and!; [done..|].
      by rewrite (neg_exact v) by apply (map_Forall_lookup_1 _ _ _ _ Hd Hv).
    - intros (k & v & Hv & Hneg & ->). exists k, v. split_and!; [done..|].
      by rewrite (neg_exact v) by apply (map_Forall_lookup_1 _ _ _ _ Hd Hv). }
  split_and!; [done|by apply elem_of_unused|].
  intros [Hin|Hin].
  - apply Hod in Hin as (k & v & _ & Hneg & ->). simpl. lia.
  - apply elem_of_unused in Hin as (k & v & _ & Hpos & ->); done.
Qed.

Lemma C4_reported_entries_nonzero_witness :
  let result := (call_reconcile in_order {[m3_medium_1a := 3]} ∅ ∅).1 in
  let row := {| RType := "m3.medium"; RAZ := "us-east-1a"; Count := 3 |} in
  (row ∈ (report in_order result).1
   ↔ ∃ k v, result !! k = Some v ∧ v < 0 ∧
       row = {| RType := Type_ k; RAZ := AZ k; Count := - v |})
  ∧ (row ∈ (report in_order result).2
     ↔ ∃ k v, result !! k = Some v ∧ 0 < v ∧
         row = {| RType := Type_ k; RAZ := EmptyString; Count := v |})
  ∧ (row ∈ (report in_order result).1 ∨ row ∈ (report in_order result).2 →
     0 < Count row).
Proof.
  refine (C4_reported_entries_nonzero in_order
            {[m3_medium_1a := 3]} ∅ ∅ in_order_fair _ _ _
            {| RType := "m3.medium"; RAZ := "us-east-1a"; Count := 3 |});
    by_evaluation.
Defined.

(** C7.  Both report sequences are sorted by type, ascending in the
    bytewise order of Go strings, and the sort is stable: the rows of any
    one type stand in the order in which the collecting loop appended
    them, and no row is lost or added.  Rows of types m3.large, c5.xlarge,
    m3.medium come out as c5.xlarge, m3.large, m3.medium. *)
Theorem C7_reports_sorted_stable sched (result : counts) :
  StronglySorted type_le (report sched result).1
  ∧ StronglySorted type_le (report sched result).2
  ∧ (∀ t, filter (λ r, RType r = t) (report sched result).1
          = filter (λ r, RType r = t) (collect sched result).1)
  ∧ (∀ t, filter (λ r, RType r = t) (report sched result).2
          = filter (λ r, RType r = t) (collect sched result).2)
  ∧ (report sched result).1 ≡ₚ (collect sched result).1
  ∧ (report sched result).2 ≡ₚ (collect sched result).2
  ∧ (∀ a b c,
       RType a = "m3.large" → RType b = "c5.xlarge" → RType c = "m3.medium" →
       SliceStable by_type [a; b; c] = [b; a; c]).
Proof.
  rewrite report_fst, report_snd. split_and!.
  - apply SliceStable_by_type_sorted.
  - apply SliceStable_by_type_sorted.
  - intros t. apply SliceStable_by_type_stable.
  - intros t. apply SliceStable_by_type_stable.
  - apply SliceStable_perm.
  - apply SliceStable_perm.
  - intros a b c Ha Hb Hc. unfold SliceStable.
    cbn [foldr insert_stable]. unfold by_type. rewrite ?Ha, ?Hb, ?Hc.
    change (String.ltb "m3.medium" "c5.xlarge") with false.
    cbn [insert_stable]. unfold by_type. rewrite ?Ha, ?Hb, ?Hc.
    change (String.ltb "c5.xlarge" "m3.large") with true.
    change (String.ltb "m3.medium" "m3.large") with false.
    reflexivity.
Qed.

(** ** Runs of [do] *)

Lemma bind_ok {A B} (m : M A) (f : A → M B) log log' a :
  m log = (log', inr a) → (m ≫= f) log = f a log'.
Proof. intros Hm. unfold mbind, M_bind. by rewrite Hm. Qed.

Lemma bind_stop {A B} (m : M A) (f : A → M B) log log' s :
  m log = (log', inl s) → (m ≫= f) log = (log', inl s).
Proof. intros Hm. unfold mbind, M_bind. by rewrite Hm. Qed.

(** A loop whose body neither writes nor stops. *)
Lemma for_each_quiet {A S} (P : A → Prop) (body : S → A → M S) (l : list A) :
  (∀ s x log, P x → ∃ s', body s x log = (log, inr s')) →
  Forall P l →
  ∀ s log, ∃ s', for_each l body s log = (log, inr s').
Proof.
  intros Hbody. induction 1 as [|x l Hx Hl IH]; intros s log; simpl.
  - by exists s.
  - destruct (Hbody s x log Hx) as [s' Hs'].
    rewrite (bind_ok _ _ _ _ _ Hs'). apply IH.
Qed.

Lemma count_running_quiet resp log :
  Forall (λ r, Forall complete_instance (Instances r)) resp →
  ∃ m, count_running resp log = (log, inr m).
Proof.
  intros Hresp. unfold count_running.
  apply (for_each_quiet
           (λ r, Forall complete_instance (Instances r))); [|done].
  intros m r log' Hr.
  apply (for_each_quiet complete_instance); [|done].
  intros m' inst log'' [[ty Hty] Hpl].
  destruct (Placement_ inst) as [pl|] eqn:Hp; [|done].
  destruct Hpl as [z Hz]. rewrite Hty.
  unfold mbind, M_bind, deref, mret, M_ret. rewrite Hz. eauto.
Qed.

Lemma parse_one_cases s r log :
  complete_reserved r →
  (unknown_scope r ∧ ∃ scope, Scope r = Some scope
     ∧ parse_one s r log = (log, inl (Fail (UnknownScope scope))))
  ∨ (¬ unknown_scope r ∧ ∃ s', parse_one s r log = (log, inr s')).
Proof.
  unfold complete_reserved, unknown_scope, parse_one.
  destruct s as [azs rs]. destruct (Scope r) as [scope|]; [|done]. simpl.
  unfold mbind, M_bind, mret, M_ret, deref, fail.
  destruct (decide (scope = "Region")) as [Hreg|Hreg].
  - intros [[ty ->] [n ->]]. right. split; [by intros [? _]|].
    eauto.
  - destruct (decide (scope = "Availability Zone")) as [Haz|Haz].
    + intros ([ty ->] & [z ->] & [n ->]). right.
      split; [by intros [_ ?]|]. eauto.
    + intros _. left. split; [done|]. by exists scope.
Qed.

Lemma parse_unknown ris :
  Forall complete_reserved ris → Exists unknown_scope ris →
  ∀ s log, ∃ scope r,
    r ∈ ris ∧ Scope r = Some scope ∧ unknown_scope r
    ∧ for_each ris parse_one s log = (log, inl (Fail (UnknownScope scope))).
Proof.
  induction 1 as [|r ris Hr Hris IH]; intros Hex s log.
  - by apply Exists_nil in Hex.
  - simpl. destruct (parse_one_cases s r log Hr)
      as [(Hu & scope & Hscope & Hfail)|(Hk & s' & Hs')].
    + exists scope, r. split_and!; [left|done..|].
      by rewrite (bind_stop _ _ _ _ _ Hfail).
    + rewrite (bind_ok _ _ _ _ _ Hs').
      apply Exists_cons in Hex as [Hex|Hex]; [done|].
      destruct (IH Hex s' log) as (scope & r' & Hin & ? & ? & ?).
      exists scope, r'. split_and!; [by right|done..].
Qed.

(** C6.  When both fetches succeed, the fetched records have the fields
    [do] reads, and some reserved-instances record carries a scope other
    than "Region" and "Availability Zone", [do] returns the unknown-scope
    error for such a record with nothing logged: the reconciler has not
    been called and nothing has been written; the process reports the
    error and exits with code 1. *)
Theorem C6_unknown_scope_aborts sched (w : world) resp ris :
  NewSession w = None →
  DescribeInstances w = inr resp →
  Forall (λ r, Forall complete_instance (Instances r)) resp →
  DescribeReservedInstances w = inr ris →
  Forall complete_reserved ris →
  Exists unknown_scope ris →
  ∃ scope r,
    r ∈ ris ∧ Scope r = Some scope
    ∧ scope ≠ "Region" ∧ scope ≠ "Availability Zone"
    ∧ do sched w [] = ([], inl (Fail (UnknownScope scope)))
    ∧ main sched w
      = {| written := []; stderr := Some (Fail (UnknownScope scope));
           exit_code := 1 |}.
Proof.
  intros Hsess Hinst Hcomplete Hres Hris Hex.
  destruct (count_running_quiet resp [] Hcomplete) as [m Hm].
  destruct (parse_unknown ris Hris Hex (∅, ∅) [])
    as (scope & r & Hin & Hscope & Hu & Hfail).
  fold (parse_reservations ris) in Hfail.
  exists scope, r.
  assert (Hdo : do sched w [] = ([], inl (Fail (UnknownScope scope)))).
  { unfold do. rewrite Hsess, Hinst, Hres.
    rewrite (bind_ok _ _ [] [] tt) by done.
    rewrite (bind_ok _ _ [] [] resp) by done.
    rewrite (bind_ok _ _ [] [] m) by done.
    rewrite (bind_ok _ _ [] [] ris) by done.
    by rewrite (bind_stop _ _ [] [] (Fail (UnknownScope scope))). }
  unfold unknown_scope in Hu. rewrite Hscope in Hu. destruct Hu as [Hu1 Hu2].
  split_and!; [done..|].
  unfold main. by rewrite Hdo.
Qed.

Lemma C6_unknown_scope_aborts_witness :
  ∃ scope r,
    r ∈ [custom_record] ∧ Scope r = Some scope
    ∧ scope ≠ "Region" ∧ scope ≠ "Availability Zone"
    ∧ do in_order (world_with [custom_record]) []
      = ([], inl (Fail (UnknownScope scope)))
    ∧ main in_order (world_with [custom_record])
      = {| written := []; stderr := Some (Fail (UnknownScope scope));
           exit_code := 1 |}.
Proof.
  eapply (C6_unknown_scope_aborts in_order (world_with [custom_record]));
    [reflexivity|reflexivity|by_evaluation|reflexivity|by_evaluation..].
Defined.

(** ** What [do] writes *)

Lemma has_tab_app a b : has_tab (a +:+ b) = has_tab a || has_tab b.
Proof.
  induction a as [|c a IH]; simpl; [done|].
  rewrite IH. by rewrite orb_assoc.
Qed.

Lemma on_demand_row_tab v : has_tab (on_demand_row v) = true.
Proof.
  unfold on_demand_row. rewrite !has_tab_app.
  change (has_tab tab) with true. by rewrite !orb_true_r.
Qed.

Lemma unused_row_tab v : has_tab (unused_row v) = true.
Proof.
  unfold unused_row. rewrite !has_tab_app.
  change (has_tab tab) with true. by rewrite !orb_true_r.
Qed.

Lemma elem_of_report_texts od un line :
  has_tab line = false →
  line ∈ report_texts od un
  ↔ (line = on_demand_header ∧ od ≠ []) ∨ (line = unused_header ∧ un ≠ []).
Proof.
  intros Hline. unfold report_texts.
  rewrite !elem_of_app, !list_elem_of_fmap.
  assert (Hod : ¬ ∃ v, line = on_demand_row v ∧ v ∈ od).
  { intros (v & -> & _). by rewrite on_demand_row_tab in Hline. }
  assert (Hun : ¬ ∃ v, line = unused_row v ∧ v ∈ un).
  { intros (v & -> & _). by rewrite unused_row_tab in Hline. }
  assert (Hnil : ¬ (@nil reportedInfo ≠ [])) by (intros Hne; by apply Hne).
  destruct od as [|x od], un as [|y un];
    rewrite ?list_elem_of_singleton, ?elem_of_nil;
    try (assert (x :: od ≠ []) by done);
    try (assert (y :: un ≠ []) by done);
    tauto.
Qed.

Lemma for_each_emit {A} (f : A → string) (l : list A) log :
  for_each l (λ _ v, emit (Wrote (f v))) tt log
  = (log ++ (Wrote <$> (f <$> l)), inr tt).
Proof.
  revert log. induction l as [|x l IH]; intros log; simpl.
  - by rewrite app_nil_r.
  - unfold mbind, M_bind, emit. rewrite IH. by rewrite <- app_assoc.
Qed.

Lemma header_log (l : list reportedInfo) (hdr : string) log :
  (if bool_decide (0 < length l)%nat then Fprintln hdr else mret tt) log
  = (log ++ (Wrote <$> (if l is [] then [] else [hdr +:+ newline])), inr tt).
Proof.
  destruct l as [|x l].
  - rewrite bool_decide_eq_false_2 by (simpl; lia).
    unfold mret, M_ret. simpl. by rewrite app_nil_r.
  - rewrite bool_decide_eq_true_2 by (simpl; lia). done.
Qed.

Lemma render_log od un log :
  render od un log = (log ++ (Wrote <$> report_texts od un), inr tt).
Proof.
  unfold render, report_texts.
  rewrite (bind_ok _ _ _ _ _ (header_log od _ log)).
  rewrite (bind_ok _ _ _ _ _ (for_each_emit on_demand_row od _)).
  rewrite (bind_ok _ _ _ _ _ (header_log un _ _)).
  rewrite for_each_emit. unfold on_demand_header, unused_header.
  by rewrite !fmap_app, <- !app_assoc.
Qed.

Lemma texts_wrote (l : list string) : texts (Wrote <$> l) = l.
Proof.
  unfold texts. induction l as [|x l IH]; [done|].
  cbn [fmap list_fmap omap list_omap]. f_equal. exact IH.
Qed.

Lemma main_written sched (w : world) :
  written (main sched w) = texts (do sched w []).1.
Proof. unfold main. by destruct (do sched w []) as [log [[e|]|[]]]. Qed.

Lemma do_reports sched (w : world) resp ris (running az region : counts) :
  NewSession w = None →
  DescribeInstances w = inr resp →
  count_running resp [] = ([], inr running) →
  DescribeReservedInstances w = inr ris →
  parse_reservations ris [] = ([], inr (az, region)) →
  (do sched w []).1
  = Reconciled
    :: (Wrote <$> report_texts
          (report sched (call_reconcile sched running az region).1).1
          (report sched (call_reconcile sched running az region).1).2).
Proof.
  intros Hsess Hinst Hrun Hres Hparse.
  unfold do. rewrite Hsess, Hinst, Hres.
  rewrite (bind_ok _ _ [] [] tt) by done.
  rewrite (bind_ok _ _ [] [] resp) by done.
  rewrite (bind_ok _ _ [] [] running) by done.
  rewrite (bind_ok _ _ [] [] ris) by done.
  rewrite (bind_ok _ _ [] [] (az, region)) by done.
  rewrite (bind_ok _ _ [] [Reconciled] tt) by done.
  destruct (report sched (call_reconcile sched running az region).1)
    as [od un].
  rewrite (bind_ok _ _ _ _ _ (render_log od un _)).
  by destruct (Flush w).
Qed.

(** C8, on the header text: with one running m3.medium and no reservation
    the uncovered section has its row, under the header
    "On-demand EC2 instances:", and the line "On-demand instances:" of the
    specification is not written. *)
Lemma C8_header_text_differs :
  written (main in_order (world_with []))
  = [on_demand_header;
     "m3.medium" +:+ tab +:+ "1" +:+ tab +:+ "us-east-1a" +:+ newline]
  ∧ ¬ (("On-demand instances:" +:+ newline)
         ∈ written (main in_order (world_with []))
       ↔ (report in_order
            (call_reconcile in_order {[m3_medium_1a := 1]} ∅ ∅).1).1 ≠ []).
Proof.
  assert (Hw : written (main in_order (world_with []))
               = [on_demand_header;
                  "m3.medium" +:+ tab +:+ "1" +:+ tab +:+ "us-east-1a"
                    +:+ newline]) by (by vm_compute).
  split; [done|]. rewrite Hw. intros [_ Hin].
  assert (Hrow : (report in_order
                    (call_reconcile in_order {[m3_medium_1a := 1]} ∅ ∅).1).1
                 ≠ []) by (by vm_compute).
  apply Hin in Hrow. revert Hrow. by_evaluation.
Qed.

(** C8, amended.  In a run that reaches the report, the texts written are:
    the line "On-demand EC2 instances:" if the uncovered sequence is not
    empty, its rows, the line "Unused reservations:" if the unused
    sequence is not empty, its rows.  Each header is written exactly when
    its section is not empty, and stands right before it. *)
Theorem C8_headers sched (w : world) resp ris (running az region : counts) :
  NewSession w = None →
  DescribeInstances w = inr resp →
  count_running resp [] = ([], inr running) →
  DescribeReservedInstances w = inr ris →
  parse_reservations ris [] = ([], inr (az, region)) →
  let od := (report sched (call_reconcile sched running az region).1).1 in
  let un := (report sched (call_reconcile sched running az region).1).2 in
  written (main sched w)
  = (if od is [] then [] else ["On-demand EC2 instances:" +:+ newline])
    ++ (on_demand_row <$> od)
    ++ (if un is [] then [] else ["Unused reservations:" +:+ newline])
    ++ (unused_row <$> un)
  ∧ (("On-demand EC2 instances:" +:+ newline) ∈ written (main sched w)
     ↔ od ≠ [])
  ∧ (("Unused reservations:" +:+ newline) ∈ written (main sched w)
     ↔ un ≠ []).
Proof.
  intros Hsess Hinst Hrun Hres Hparse od un.
  assert (Hw : written (main sched w) = report_texts od un).
  { rewrite main_written.
    rewrite (do_reports sched w resp ris running az region) by done.
    apply texts_wrote. }
  rewrite Hw. split_and!; [done|..].
  - change ("On-demand EC2 instances:" +:+ newline) with on_demand_header.
    rewrite elem_of_report_texts by done.
    assert (on_demand_header ≠ unused_header) by by_evaluation. tauto.
  - change ("Unused reservations:" +:+ newline) with unused_header.
    rewrite elem_of_report_texts by done.
    assert (unused_header ≠ on_demand_header) by by_evaluation. tauto.
Qed.

Lemma C8_headers_witness :
  ("On-demand EC2 instances:" +:+ newline)
    ∈ written (main in_order (world_with []))
  ↔ (report in_order
       (call_reconcile in_order {[m3_medium_1a := 1]} ∅ ∅).1).1 ≠ [].
Proof.
  eapply (C8_headers in_order (world_with []) _ _ {[m3_medium_1a := 1]} ∅ ∅);
    [reflexivity|reflexivity|by_evaluation|reflexivity|by_evaluation].
Defined.

(** ** Further properties of [reconcile] *)

Lemma visit_dom_out (s : counts * counts) k : dom (visit s k).1 = dom s.1.
Proof.
  unfold visit. destruct (s.1 !! k) as [v|] eqn:Hv; [|done].
  destruct (borrow_step_cases k v s)
    as [[_ ->]|[(v2 & _ & _ & _ & ->)|(v2 & _ & _ & _ & ->)]]; [done|..];
    cbn [fst]; by apply dom_insert_lookup_L.
Qed.

Lemma visit_dom_pool (s : counts * counts) k : dom (visit s k).2 ⊆ dom s.2.
Proof.
  unfold visit. destruct (s.1 !! k) as [v|] eqn:Hv; [|done].
  destruct (borrow_step_cases k v s)
    as [[_ ->]|[(v2 & _ & Hv2 & _ & ->)|(v2 & _ & Hv2 & _ & ->)]]; [done|..];
    cbn [snd].
  - rewrite dom_delete_L. by apply subseteq_difference_l.
  - by rewrite dom_insert_lookup_L.
Qed.

Lemma zoned_dom sched (running az : counts) :
  fair sched → dom (zoned sched running az) = dom running ∪ dom az.
Proof.
  intros Hfair. apply set_eq. intros k.
  rewrite elem_of_union, !elem_of_dom, zoned_lookup by done.
  destruct (az !! k) as [x|], (running !! k) as [y|]; simpl;
    split; intros H;
    first [by eauto | by left; eauto | by right; eauto
          | by destruct H as [[??]|[??]] | by destruct H as [??]].
Qed.

(** X1.  No key is ever removed from the result: every key of the running
    and of the zone-reservation map is a key of the returned mapping, also
    when its delta is zero; the remaining keys of the result are those left
    in the region map, which are among the keys it had. *)
Theorem X1_result_keys sched (running az region : counts) :
  fair sched →
  dom (call_reconcile sched running az region).1
  = dom running ∪ dom az ∪ dom (call_reconcile sched running az region).2
  ∧ dom (call_reconcile sched running az region).2 ⊆ dom region.
Proof.
  intros Hfair. rewrite reconcile_result by done. cbn [fst snd].
  assert (Hinv : dom (borrowed sched running az region).1
                 = dom (zoned sched running az)
                 ∧ dom (borrowed sched running az region).2 ⊆ dom region).
  { unfold borrowed, borrow_pass.
    apply (foldl_visit_ind
             (λ s, dom s.1 = dom (zoned sched running az)
                   ∧ dom s.2 ⊆ dom region)); [|done].
    intros s k [H1 H2]. rewrite visit_dom_out. split; [done|].
    etrans; [apply visit_dom_pool|done]. }
  destruct Hinv as [H1 H2]. split; [|done].
  rewrite dom_union_L, H1, zoned_dom by done. apply (comm_L (∪)).
Qed.

Lemma X1_result_keys_witness :
  dom (call_reconcile in_order
         {[m3_medium_1a := 3]} {[m3_medium_1a := 3]} {[m3_medium := 5]}).1
  = dom ({[m3_medium_1a := 3]} : counts) ∪ dom ({[m3_medium_1a := 3]} : counts)
    ∪ dom (call_reconcile in_order
             {[m3_medium_1a := 3]} {[m3_medium_1a := 3]} {[m3_medium := 5]}).2
  ∧ dom (call_reconcile in_order
           {[m3_medium_1a := 3]} {[m3_medium_1a := 3]} {[m3_medium := 5]}).2
    ⊆ dom ({[m3_medium := 5]} : counts).
Proof. apply (X1_result_keys in_order). exact in_order_fair. Defined.

Lemma visit_no_pool (s : counts * counts) k :
  s.2 !! strip k = None → visit s k = s.
Proof.
  intros Hpool. unfold visit. destruct (s.1 !! k) as [v|]; [|done].
  destruct (borrow_step_cases k v s)
    as [[_ ->]|[(v2 & _ & Hv2 & _)|(v2 & _ & Hv2 & _)]]; [done|congruence..].
Qed.

(** X2.  A type without region-scoped reservation is not touched by the
    borrowing: for count inputs and a region map keyed by type alone, a
    key whose type has no entry in the region map ends with its zone
    reservations minus its running instances, or with no entry when it is
    in neither map. *)
Theorem X2_type_without_pool sched (running az region : counts) k :
  fair sched →
  counts_ok running → counts_ok az → region_keyed region →
  region !! strip k = None →
  (call_reconcile sched running az region).1 !! k
  = if decide (is_Some (running !! k) ∨ is_Some (az !! k))
    then Some (default 0 (az !! k) - default 0 (running !! k))
    else None.
Proof.
  intros Hfair Hr Ha Hkeyed Hnone. rewrite reconcile_result by done.
  cbn [fst].
  assert (Hinv : (borrowed sched running az region).1 !! k
                 = zoned sched running az !! k
                 ∧ (borrowed sched running az region).2 !! strip k = None
                 ∧ dom (borrowed sched running az region).2 ⊆ dom region).
  { unfold borrowed, borrow_pass.
    apply (foldl_visit_ind
             (λ s, s.1 !! k = zoned sched running az !! k
                   ∧ s.2 !! strip k = None ∧ dom s.2 ⊆ dom region)).
    - intros s k' (H1 & H2 & H3). split_and!.
      + destruct (s.2 !! strip k') as [p|] eqn:Hp.
        * rewrite visit_out_frame; [done|]. intros ->. congruence.
        * by rewrite visit_no_pool.
      + destruct (s.2 !! strip k') as [p|] eqn:Hp.
        * rewrite visit_pool_frame; [done|]. intros Heq. congruence.
        * by rewrite visit_no_pool.
      + etrans; [apply visit_dom_pool|done].
    - done. }
  destruct Hinv as (H1 & H2 & H3).
  assert (Hk : (borrowed sched running az region).2 !! k = None).
  { apply not_elem_of_dom. intros Hin. apply H3 in Hin.
    apply elem_of_dom in Hin as [p Hp].
    pose proof (map_Forall_lookup_1 _ _ _ _ Hkeyed Hp) as Hz. simpl in Hz.
    assert (strip k = k) as Hs by (destruct k; simpl in *; by subst).
    congruence. }
  rewrite lookup_union_r, H1 by done.
  rewrite (zoned_exact sched Hfair running az Hr Ha).
  destruct (az !! k) as [x|], (running !! k) as [y|];
    case_decide as Hd; simpl;
    first [by f_equal; lia
          | by exfalso; apply Hd; eauto
          | by destruct Hd as [[??]|[??]]
          | done].
Qed.

Lemma X2_type_without_pool_witness :
  (call_reconcile in_order {[m3_medium_1a := 5]} {[m3_medium_1a := 2]} ∅).1
    !! m3_medium_1a
  = if decide (is_Some (({[m3_medium_1a := 5]} : counts) !! m3_medium_1a)
               ∨ is_Some (({[m3_medium_1a := 2]} : counts) !! m3_medium_1a))
    then Some (default 0 (({[m3_medium_1a := 2]} : counts) !! m3_medium_1a)
               - default 0 (({[m3_medium_1a := 5]} : counts) !! m3_medium_1a))
    else None.
Proof.
  apply (X2_type_without_pool in_order);
    [exact in_order_fair|by_evaluation..].
Defined.

(** X3.  Where the zone-scoped reservations cover every key (in
    particular when nothing is running) the region map comes back as it
    was, and the result is the mapping of the zone pass with the region
    entries written over it. *)
Theorem X3_no_deficit_no_borrowing sched (running az region : counts) :
  fair sched →
  counts_ok running → counts_ok az →
  (∀ k, default 0 (running !! k) ≤ default 0 (az !! k)) →
  call_reconcile sched running az region
  = (region ∪ zoned sched running az, region).
Proof.
  intros Hfair Hr Ha Hcover. rewrite reconcile_result by done.
  assert (Hsame : borrowed sched running az region
                  = (zoned sched running az, region)).
  { unfold borrowed, borrow_pass.
    apply (foldl_visit_ind (λ s, s = (zoned sched running az, region)));
      [|done].
    intros s k ->. apply visit_skip. cbn [fst]. intros v Hv.
    apply (zoned_value sched Hfair running az Hr Ha) in Hv.
    specialize (Hcover k). lia. }
  by rewrite Hsame.
Qed.

Lemma X3_no_deficit_no_borrowing_witness :
  call_reconcile in_order ∅ {[m3_medium_1a := 4]} {[m3_medium := 5]}
  = ({[m3_medium := 5]} ∪ zoned in_order ∅ {[m3_medium_1a := 4]},
     {[m3_medium := 5]}).
Proof.
  apply (X3_no_deficit_no_borrowing in_order);
    [exact in_order_fair|by_evaluation|by_evaluation|].
  intros k. rewrite lookup_empty. simpl.
  destruct (decide (k = m3_medium_1a)) as [->|Hne].
  - rewrite lookup_singleton_eq. simpl. lia.
  - rewrite lookup_singleton_ne by done. simpl. lia.
Defined.

(** X4.  Borrowing only ever helps a key and only ever takes from the
    pool: for count inputs, a key that is not itself a key of the region
    map ends no lower than the zone pass left it, and every entry left in
    the region map is a count no greater than the entry it started as. *)
Theorem X4_borrowing_monotone sched (running az region : counts) :
  fair sched →
  counts_ok running → counts_ok az → counts_ok region →
  (∀ k v, zoned sched running az !! k = Some v → region !! k = None →
     ∃ v', (call_reconcile sched running az region).1 !! k = Some v'
           ∧ v ≤ v')
  ∧ (∀ k p', (call_reconcile sched running az region).2 !! k = Some p' →
       ∃ p, region !! k = Some p ∧ 0 ≤ p' ≤ p).
Proof.
  intros Hfair Hr Ha Hg. rewrite reconcile_result by done. cbn [fst snd].
  assert (Hinv :
    deltas_ok (borrowed sched running az region).1
    ∧ counts_ok (borrowed sched running az region).2
    ∧ (∀ k v, zoned sched running az !! k = Some v →
         ∃ v', (borrowed sched running az region).1 !! k = Some v' ∧ v ≤ v')
    ∧ (∀ k p', (borrowed sched running az region).2 !! k = Some p' →
         ∃ p, region !! k = Some p ∧ p' ≤ p)).
  { unfold borrowed, borrow_pass.
    apply (foldl_visit_ind
      (λ s, deltas_ok s.1 ∧ counts_ok s.2
            ∧ (∀ k v, zoned sched running az !! k = Some v →
                 ∃ v', s.1 !! k = Some v' ∧ v ≤ v')
            ∧ (∀ k p', s.2 !! k = Some p' →
                 ∃ p, region !! k = Some p ∧ p' ≤ p))).
    - intros s k (Hd & Hc & Hup & Hdown).
      destruct (visit_balanced (total s.1 + total s.2) s k) as (Hd' & Hc' & _);
        [done|].
      split_and!; [done..| |].
      + intros k0 v0 Hk0. destruct (Hup k0 v0 Hk0) as (v1 & Hv1 & Hle).
        destruct (decide (k0 = k)) as [->|Hne];
          [|exists v1; by rewrite visit_out_frame].
        pose proof (map_Forall_lookup_1 _ _ _ _ Hd Hv1) as Hv1r.
        simpl in Hv1r. unfold visit. rewrite Hv1.
        destruct (borrow_step_cases k v1 s)
          as [[_ ->]|[(v2 & Hneg & Hv2 & Hcmp & ->)
                     |(v2 & Hneg & Hv2 & Hcmp & ->)]];
          [by exists v1|..];
          pose proof (map_Forall_lookup_1 _ _ _ _ Hc Hv2) as Hv2r;
          simpl in Hv2r; rewrite neg_exact in * by done;
          cbn [fst]; rewrite lookup_insert_eq; eexists; (split; [done|]).
        * rewrite add_exact by (int_simpl; lia). int_simpl. lia.
        * rewrite (sub_exact v2 (- v1)) by (int_simpl; lia).
          rewrite add_exact by (int_simpl; lia). int_simpl. lia.
      + intros k0 p' Hk0.
        destruct (s.1 !! k) as [v1|] eqn:Hv1;
          [|unfold visit in Hk0; rewrite Hv1 in Hk0; by apply Hdown].
        pose proof (map_Forall_lookup_1 _ _ _ _ Hd Hv1) as Hv1r.
        simpl in Hv1r. unfold visit in Hk0. rewrite Hv1 in Hk0.
        destruct (borrow_step_cases k v1 s)
          as [[_ Heq]|[(v2 & Hneg & Hv2 & Hcmp & Heq)
                      |(v2 & Hneg & Hv2 & Hcmp & Heq)]];
          rewrite Heq in Hk0; cbn [snd] in Hk0; [by apply Hdown|..].
        * apply lookup_delete_Some in Hk0 as [_ Hk0]. by apply Hdown.
        * pose proof (map_Forall_lookup_1 _ _ _ _ Hc Hv2) as Hv2r.
          simpl in Hv2r. rewrite neg_exact in * by done.
          destruct (decide (k0 = strip k)) as [->|Hne];
            [|rewrite lookup_insert_ne in Hk0 by done; by apply Hdown].
          rewrite lookup_insert_eq in Hk0.
          destruct (Hdown _ _ Hv2) as (p & Hp & Hle). exists p.
          split; [done|].
          rewrite (sub_exact v2 (- v1)) in Hk0 by (int_simpl; lia).
          rewrite sub_exact in Hk0 by (int_simpl; lia).
          simplify_eq. lia.
    - cbn [fst snd]. split_and!; [by apply zoned_deltas_ok|done| |].
      + intros k v Hv. exists v. split; [done|lia].
      + intros k p' Hp. exists p'. split; [done|lia]. }
  destruct Hinv as (_ & Hc & Hup & Hdown). split.
  - intros k v Hv Hnone. destruct (Hup k v Hv) as (v' & Hv' & Hle).
    exists v'. split; [|done]. rewrite lookup_union_r; [done|].
    destruct ((borrowed sched running az region).2 !! k) as [p'|] eqn:Hp';
      [|done].
    destruct (Hdown k p' Hp') as (p & Hp & _). congruence.
  - intros k p' Hp'. destruct (Hdown k p' Hp') as (p & Hp & Hle).
    exists p. split; [done|].
    pose proof (map_Forall_lookup_1 _ _ _ _ Hc Hp') as Hr'. simpl in Hr'.
    int_simpl. lia.
Qed.

Lemma X4_borrowing_monotone_witness :
  (∀ k v,
     zoned in_order {[m3_medium_1a := 3]} ∅ !! k = Some v →
     ({[m3_medium := 5]} : counts) !! k = None →
     ∃ v', (call_reconcile in_order
              {[m3_medium_1a := 3]} ∅ {[m3_medium := 5]}).1 !! k = Some v'
           ∧ v ≤ v')
  ∧ (∀ k p',
       (call_reconcile in_order
          {[m3_medium_1a := 3]} ∅ {[m3_medium := 5]}).2 !! k = Some p' →
       ∃ p, ({[m3_medium := 5]} : counts) !! k = Some p ∧ 0 ≤ p' ≤ p).
Proof.
  apply (X4_borrowing_monotone in_order);
    [exact in_order_fair|by_evaluation..].
Defined.

(** X5.  The mapping [reconcile] returns is a new object: its reference
    was not allocated before the call, so it is none of the three
    arguments, and it is the only object the call allocates. *)
Theorem X5_result_is_fresh sched (h : heap) (r a g : loc) (R A G : counts) :
  h !! r = Some R → h !! a = Some A → h !! g = Some G →
  h !! (reconcile sched r a g h).1 = None
  ∧ (reconcile sched r a g h).1 ≠ r
  ∧ (reconcile sched r a g h).1 ≠ a
  ∧ (reconcile sched r a g h).1 ≠ g
  ∧ dom (reconcile sched r a g h).2
    = {[(reconcile sched r a g h).1]} ∪ dom h.
Proof.
  intros Hr Ha Hg.
  rewrite (reconcile_on_heap sched h r a g R A G) by done. cbn [fst snd].
  assert (Ho : h !! fresh (dom h) = None).
  { apply not_elem_of_dom, is_fresh. }
  split_and!; [done|congruence..|].
  rewrite !dom_insert_L.
  assert (Hin : g ∈ dom h) by (apply elem_of_dom; eauto).
  apply set_eq. intros l. rewrite !elem_of_union, !elem_of_singleton.
  split; [intros [?|[->|?]]; auto|intros [?|?]; auto].
Qed.

Lemma X5_result_is_fresh_witness :
  (<[2%nat := {[m3_medium := 2]}]>
     (<[1%nat := ∅]> ({[0%nat := {[m3_medium_1a := 5]}]} : heap)))
    !! (reconcile in_order 0 1 2
          (<[2%nat := {[m3_medium := 2]}]>
             (<[1%nat := ∅]> {[0%nat := {[m3_medium_1a := 5]}]}))).1
  = None.
Proof.
  refine (proj1 (X5_result_is_fresh in_order _ 0%nat 1%nat 2%nat
                   {[m3_medium_1a := 5]} ∅ {[m3_medium := 2]} _ _ _));
    by_evaluation.
Defined.

(** ** The outcomes of [do] *)

(** A loop whose body, at every element, either goes on without a trace or
    stops without a trace, depending on the element alone. *)
Lemma for_each_cases {A S} (P : A → Prop) `{∀ x, Decision (P x)}
    (Q : stop → Prop) (body : S → A → M S) :
  (∀ s x log, P x → ∃ s', body s x log = (log, inr s')) →
  (∀ s x log, ¬ P x → ∃ st, Q st ∧ body s x log = (log, inl st)) →
  ∀ l s log,
    (Forall P l ∧ ∃ s', for_each l body s log = (log, inr s'))
    ∨ (¬ Forall P l ∧ ∃ st, Q st ∧ for_each l body s log = (log, inl st)).
Proof.
  intros Hgo Hstop. induction l as [|x l IH]; intros s log.
  - left. split; [constructor|]. by exists s.
  - cbn [for_each]. destruct (decide (P x)) as [Hx|Hx].
    + destruct (Hgo s x log Hx) as [s' Hs'].
      rewrite (bind_ok _ _ _ _ _ Hs').
      destruct (IH s' log) as [[Hl Hok]|[Hl Hst]].
      * left. split; [by constructor|done].
      * right. split; [|done]. intros Hall. apply Hl.
        by apply Forall_cons in Hall as [_ ?].
    + destruct (Hstop s x log Hx) as (st & Hq & Hst).
      right. split.
      * intros Hall. by apply Forall_cons in Hall as [? _].
      * exists st. split; [done|]. by rewrite (bind_stop _ _ _ _ _ Hst).
Qed.

Lemma count_one_cases (m : counts) (inst : Instance) log :
  (complete_instance inst ∧ ∃ k, instance_key inst = Some k ∧
     (ty ← deref (InstanceType inst);
      pl ← deref (Placement_ inst);
      az ← deref (AvailabilityZone pl);
      let ii := {| Type_ := ty; AZ := az |} in
      mret (<[ii := Int.add (default 0 (m !! ii)) 1]> m)) log
     = (log, inr (bump m k 1)))
  ∨ (¬ complete_instance inst ∧ instance_key inst = None ∧
     (ty ← deref (InstanceType inst);
      pl ← deref (Placement_ inst);
      az ← deref (AvailabilityZone pl);
      let ii := {| Type_ := ty; AZ := az |} in
      mret (<[ii := Int.add (default 0 (m !! ii)) 1]> m)) log
     = (log, inl Panic)).
Proof.
  unfold complete_instance, instance_key, bump.
  destruct (InstanceType inst) as [ty|].
  - destruct (Placement_ inst) as [pl|].
    + destruct (AvailabilityZone pl) as [z|] eqn:Hz.
      * left. split; [split; eauto|].
        eexists. split; [reflexivity|].
        cbv [mbind M_bind mret M_ret deref panic]. by rewrite Hz.
      * right. split_and!; [|done|].
        -- intros [_ [? ?]]. done.
        -- cbv [mbind M_bind mret M_ret deref panic]. by rewrite Hz.
    + right. split_and!; [|done..]. by intros [_ ?].
  - right. split_and!; [|done..]. intros [[? ?] _]. done.
Qed.

Lemma count_running_cases resp log :
  (Forall (λ r, Forall complete_instance (Instances r)) resp
   ∧ ∃ m, count_running resp log = (log, inr m))
  ∨ (¬ Forall (λ r, Forall complete_instance (Instances r)) resp
     ∧ count_running resp log = (log, inl Panic)).
Proof.
  unfold count_running.
  assert (Hinner : ∀ l (s : counts) log',
    (Forall complete_instance l
     ∧ ∃ s', for_each l (λ m inst,
               ty ← deref (InstanceType inst);
               pl ← deref (Placement_ inst);
               az ← deref (AvailabilityZone pl);
               let ii := {| Type_ := ty; AZ := az |} in
               mret (<[ii := Int.add (default 0 (m !! ii)) 1]> m)) s log'
             = (log', inr s'))
    ∨ (¬ Forall complete_instance l
       ∧ ∃ st, st = Panic ∧
           for_each l (λ m inst,
             ty ← deref (InstanceType inst);
             pl ← deref (Placement_ inst);
             az ← deref (AvailabilityZone pl);
             let ii := {| Type_ := ty; AZ := az |} in
             mret (<[ii := Int.add (default 0 (m !! ii)) 1]> m)) s log'
           = (log', inl st))).
  { apply (for_each_cases complete_instance (λ st, st = Panic)).
    - intros s x log' Hx.
      destruct (count_one_cases s x log') as [(_ & k & _ & ->)|[? _]]; eauto.
      done.
    - intros s x log' Hx.
      destruct (count_one_cases s x log') as [[? _]|(_ & _ & ->)]; eauto.
      done. }
  destruct (for_each_cases
              (λ r, Forall complete_instance (Instances r))
              (λ st, st = Panic)
              (λ (m : counts) r, for_each (Instances r) (λ m inst,
                 ty ← deref (InstanceType inst);
                 pl ← deref (Placement_ inst);
                 az ← deref (AvailabilityZone pl);
                 let ii := {| Type_ := ty; AZ := az |} in
                 mret (<[ii := Int.add (default 0 (m !! ii)) 1]> m)) m)
              ) with resp (∅ : counts) log as [[Hall Hok]|[Hall (st & -> & Hst)]].
  - intros s r log' Hr. destruct (Hinner (Instances r) s log') as [[_ ?]|[? _]];
      done.
  - intros s r log' Hr. destruct (Hinner (Instances r) s log') as [[? _]|[_ ?]];
      done.
  - by left.
  - by right.
Qed.

Lemma parse_one_stops s r log :
  ¬ reserved_ok r →
  ∃ st, (st = Panic ∨ ∃ scope, st = Fail (UnknownScope scope))
        ∧ parse_one s r log = (log, inl st).
Proof.
  unfold reserved_ok, complete_reserved, unknown_scope, parse_one.
  destruct s as [azs rs].
  destruct (Scope r) as [scope|];
    cbv [mbind M_bind mret M_ret deref fail panic];
    [|intros _; exists Panic; eauto].
  destruct (decide (scope = "Region")) as [Hreg|Hreg].
  - destruct (RInstanceType r) as [ty|];
      cbv [mbind M_bind mret M_ret deref fail panic];
      [|intros _; exists Panic; eauto].
    destruct (InstanceCount r) as [n|];
      cbv [mbind M_bind mret M_ret deref fail panic];
      [|intros _; exists Panic; eauto].
    intros Hbad. exfalso. apply Hbad. split; [eauto|]. by intros [? _].
  - destruct (decide (scope = "Availability Zone")) as [Haz|Haz].
    + destruct (RInstanceType r) as [ty|];
        cbv [mbind M_bind mret M_ret deref fail panic];
        [|intros _; exists Panic; eauto].
      destruct (RAvailabilityZone r) as [z|];
        cbv [mbind M_bind mret M_ret deref fail panic];
        [|intros _; exists Panic; eauto].
      destruct (InstanceCount r) as [n|];
        cbv [mbind M_bind mret M_ret deref fail panic];
        [|intros _; exists Panic; eauto].
      intros Hbad. exfalso. apply Hbad. split; [eauto|]. by intros [_ ?].
    + intros _. exists (Fail (UnknownScope scope)). eauto.
Qed.

Lemma parse_reservations_cases ris log :
  (Forall reserved_ok ris
   ∧ ∃ s, parse_reservations ris log = (log, inr s))
  ∨ (¬ Forall reserved_ok ris
     ∧ ∃ st, (st = Panic ∨ ∃ scope, st = Fail (UnknownScope scope))
             ∧ parse_reservations ris log = (log, inl st)).
Proof.
  unfold parse_reservations.
  apply (for_each_cases reserved_ok
           (λ st, st = Panic ∨ ∃ scope, st = Fail (UnknownScope scope))).
  - intros s r log' [Hc Hk].
    destruct (parse_one_cases s r log' Hc) as [[? _]|[_ ?]]; done.
  - intros s r log' Hbad. by apply parse_one_stops.
Qed.

(** Every run of [do], by the place where it ends. *)
Lemma do_outcome sched (w : world) :
  (∃ e, NewSession w = Some e ∧ do sched w [] = ([], inl (Fail e)))
  ∨ (NewSession w = None
     ∧ ∃ e, DescribeInstances w = inl e
            ∧ do sched w [] = ([], inl (Fail e)))
  ∨ (NewSession w = None
     ∧ ∃ resp, DescribeInstances w = inr resp
       ∧ ¬ Forall (λ r, Forall complete_instance (Instances r)) resp
       ∧ do sched w [] = ([], inl Panic))
  ∨ (NewSession w = None
     ∧ ∃ resp, DescribeInstances w = inr resp
       ∧ Forall (λ r, Forall complete_instance (Instances r)) resp
       ∧ ∃ e, DescribeReservedInstances w = inl e
              ∧ do sched w [] = ([], inl (Fail e)))
  ∨ (NewSession w = None
     ∧ ∃ resp ris, DescribeInstances w = inr resp
       ∧ Forall (λ r, Forall complete_instance (Instances r)) resp
       ∧ DescribeReservedInstances w = inr ris
       ∧ ¬ Forall reserved_ok ris
       ∧ ∃ st, (st = Panic ∨ ∃ scope, st = Fail (UnknownScope scope))
               ∧ do sched w [] = ([], inl st))
  ∨ (NewSession w = None
     ∧ ∃ resp ris running az region,
         DescribeInstances w = inr resp
         ∧ Forall (λ r, Forall complete_instance (Instances r)) resp
         ∧ DescribeReservedInstances w = inr ris
         ∧ Forall reserved_ok ris
         ∧ count_running resp [] = ([], inr running)
         ∧ parse_reservations ris [] = ([], inr (az, region))
         ∧ do sched w []
           = (Reconciled
                :: (Wrote <$> report_texts
                      (report sched
                         (call_reconcile sched running az region).1).1
                      (report sched
                         (call_reconcile sched running az region).1).2),
              match Flush w with
              | Some e => inl (Fail e)
              | None => inr tt
              end)).
Proof.
  destruct (NewSession w) as [e|] eqn:Hsess.
  { left. exists e. split; [done|]. unfold do. by rewrite Hsess. }
  right. destruct (DescribeInstances w) as [e|resp] eqn:Hinst.
  { left. split; [done|]. exists e. split; [done|].
    unfold do. by rewrite Hsess, Hinst. }
  right. destruct (count_running_cases resp []) as [[Hall [m Hm]]|[Hall Hm]].
  2:{ left. split; [done|]. exists resp. split_and!; [done..|].
      unfold do. rewrite Hsess, Hinst.
      rewrite (bind_ok _ _ [] [] tt) by done.
      rewrite (bind_ok _ _ [] [] resp) by done.
      by rewrite (bind_stop _ _ [] [] Panic). }
  right. destruct (DescribeReservedInstances w) as [e|ris] eqn:Hres.
  { left. split; [done|]. exists resp. split_and!; [done..|].
    exists e. split; [done|]. unfold do. rewrite Hsess, Hinst, Hres.
    rewrite (bind_ok _ _ [] [] tt) by done.
    rewrite (bind_ok _ _ [] [] resp) by done.
    by rewrite (bind_ok _ _ [] [] m). }
  right. destruct (parse_reservations_cases ris [])
    as [[Hok [[az region] Hp]]|[Hbad (st & Hst & Hp)]].
  2:{ left. split; [done|]. exists resp, ris. split_and!; [done..|].
      exists st. split; [done|]. unfold do. rewrite Hsess, Hinst, Hres.
      rewrite (bind_ok _ _ [] [] tt) by done.
      rewrite (bind_ok _ _ [] [] resp) by done.
      rewrite (bind_ok _ _ [] [] m) by done.
      rewrite (bind_ok _ _ [] [] ris) by done.
      by rewrite (bind_stop _ _ [] [] st). }
  right. split; [done|]. exists resp, ris, m, az, region.
  split_and!; [done..|].
  unfold do. rewrite Hsess, Hinst, Hres.
  rewrite (bind_ok _ _ [] [] tt) by done.
  rewrite (bind_ok _ _ [] [] resp) by done.
  rewrite (bind_ok _ _ [] [] m) by done.
  rewrite (bind_ok _ _ [] [] ris) by done.
  rewrite (bind_ok _ _ [] [] (az, region)) by done.
  rewrite (bind_ok _ _ [] [Reconciled] tt) by done.
  destruct (report sched (call_reconcile sched m az region).1) as [od un].
  rewrite (bind_ok _ _ _ _ _ (render_log od un _)).
  by destruct (Flush w).
Qed.

(** X6.  An error of the session or of either fetch ends the run with that
    very error: [do] returns it with nothing logged (no call of the
    reconciler, no write), and the process reports it and exits with
    code 1.  The reserved instances are fetched only after the running
    instances have been counted. *)
Theorem X6_fetch_error_aborts sched (w : world) (e : error) :
  NewSession w = Some e
  ∨ (NewSession w = None ∧ DescribeInstances w = inl e)
  ∨ (NewSession w = None
     ∧ ∃ resp, DescribeInstances w = inr resp
       ∧ Forall (λ r, Forall complete_instance (Instances r)) resp
       ∧ DescribeReservedInstances w = inl e) →
  do sched w [] = ([], inl (Fail e))
  ∧ main sched w
    = {| written := []; stderr := Some (Fail e); exit_code := 1 |}.
Proof.
  intros Hcase.
  assert (Hdo : do sched w [] = ([], inl (Fail e))).
  { unfold do.
    destruct Hcase as [Hs|[[Hs Hi]|(Hs & resp & Hi & Hall & Hr)]];
      rewrite Hs; [done|rewrite Hi; done|].
    rewrite Hi, Hr. destruct (count_running_quiet resp [] Hall) as [m Hm].
    rewrite (bind_ok _ _ [] [] tt) by done.
    rewrite (bind_ok _ _ [] [] resp) by done.
    by rewrite (bind_ok _ _ [] [] m). }
  split; [done|]. unfold main. by rewrite Hdo.
Qed.

Lemma X6_fetch_error_aborts_witness :
  do in_order
     {| NewSession := Some (Collaborator "no credentials");
        DescribeInstances := inr []; DescribeReservedInstances := inr [];
        Flush := None |} []
  = ([], inl (Fail (Collaborator "no credentials")))
  ∧ main in_order
      {| NewSession := Some (Collaborator "no credentials");
         DescribeInstances := inr []; DescribeReservedInstances := inr [];
         Flush := None |}
    = {| written := [];
         stderr := Some (Fail (Collaborator "no credentials"));
         exit_code := 1 |}.
Proof. apply (X6_fetch_error_aborts in_order). by left. Defined.


(** X8.  The process exits with code 0 exactly when the session and both
    fetches succeed, every fetched record has the fields [do] reads, every
    reservation scope is "Region" or "Availability Zone", and flushing the
    tab writer succeeds. *)
Theorem X8_exit_code_zero sched (w : world) :
  exit_code (main sched w) = 0
  ↔ NewSession w = None
    ∧ ∃ resp ris,
        DescribeInstances w = inr resp
        ∧ Forall (λ r, Forall complete_instance (Instances r)) resp
        ∧ DescribeReservedInstances w = inr ris
        ∧ Forall reserved_ok ris
        ∧ Flush w = None.
Proof.
  unfold main.
  destruct (do_outcome sched w)
    as [(e & Hs & ->)
       |[(Hs & e & Hi & ->)
        |[(Hs & resp & Hi & Hbad & ->)
         |[(Hs & resp & Hi & Hall & e & Hr & ->)
          |[(Hs & resp & ris & Hi & Hall & Hr & Hbad & st & Hst & ->)
           |(Hs & resp & ris & running & az & region
               & Hi & Hall & Hr & Hok & _ & _ & ->)]]]]].
  - split; [done|]. intros [? _]. congruence.
  - split; [done|]. intros (_ & resp & ris & ? & _). congruence.
  - split; [done|]. intros (_ & resp' & ris & ? & ? & _).
    assert (resp' = resp) by congruence. by subst.
  - split; [done|]. intros (_ & resp' & ris & _ & _ & ? & _). congruence.
  - split.
    + by destruct Hst as [->|[scope ->]].
    + intros (_ & resp' & ris' & _ & _ & ? & ? & _).
      assert (ris' = ris) by congruence. by subst.
  - destruct (Flush w) as [e|] eqn:Hf.
    + split; [done|]. intros (_ & _ & _ & _ & _ & _ & _ & ?). done.
    + split; [|done]. intros _. split; [done|]. by exists resp, ris.
Qed.

(** ** The maps [do] builds *)

Lemma bump_lookup (m : counts) k n k' :
  bump m k n !! k'
  = if decide (k' = k) then Some (Int.add (default 0 (m !! k)) n)
    else m !! k'.
Proof.
  unfold bump. destruct (decide (k' = k)) as [->|Hne].
  - by rewrite lookup_insert_eq.
  - by rewrite lookup_insert_ne.
Qed.

Lemma tally_keys (l : list (instanceInfo * Z)) :
  ∀ (m0 : counts) k,
    is_Some (tally l m0 !! k) ↔ is_Some (m0 !! k) ∨ k ∈ l.*1.
Proof.
  induction l as [|[kx n] l IH]; intros m0 k.
  - cbn. rewrite elem_of_nil. tauto.
  - cbn [tally foldl fst snd]. fold (tally l (bump m0 kx n)).
    rewrite IH, bump_lookup, fmap_cons, elem_of_cons. cbn [fst].
    destruct (decide (k = kx)) as [->|Hne].
    + split; [auto|]. intros _. left. eauto.
    + tauto.
Qed.

Lemma sum_at_cons k kx n (l : list (instanceInfo * Z)) :
  sum_at k ((kx, n) :: l)
  = if decide (kx = k) then n + sum_at k l else sum_at k l.
Proof. reflexivity. Qed.

Lemma sum_at_nonneg k (l : list (instanceInfo * Z)) :
  Forall (λ e, 0 ≤ e.2) l → 0 ≤ sum_at k l.
Proof.
  induction 1 as [|[kx n] l Hn Hl IH]; [done|].
  rewrite sum_at_cons. cbn in Hn. case_decide; lia.
Qed.

(** Without overflow a tally adds up, key by key. *)
Lemma tally_exact (l : list (instanceInfo * Z)) :
  Forall (λ e, 0 ≤ e.2) l →
  ∀ m0 : counts,
    (∀ k, 0 ≤ default 0 (m0 !! k)) →
    (∀ k, default 0 (m0 !! k) + sum_at k l ≤ Int.max_int) →
    ∀ k, default 0 (tally l m0 !! k) = default 0 (m0 !! k) + sum_at k l.
Proof.
  induction 1 as [|[kx n] l Hn Hl IH]; intros m0 Hpos Hmax k.
  - cbn. lia.
  - cbn in Hn. cbn [tally foldl fst snd]. fold (tally l (bump m0 kx n)).
    pose proof (sum_at_nonneg kx l Hl) as Hkx.
    assert (Hadd : Int.add (default 0 (m0 !! kx)) n
                   = default 0 (m0 !! kx) + n).
    { apply add_exact. specialize (Hpos kx). specialize (Hmax kx).
      rewrite sum_at_cons, decide_True in Hmax by done.
      int_simpl. lia. }
    assert (Hb : ∀ k', default 0 (bump m0 kx n !! k')
                       = if decide (k' = kx)
                         then default 0 (m0 !! kx) + n
                         else default 0 (m0 !! k')).
    { intros k'. rewrite bump_lookup. case_decide; [|done].
      by rewrite Hadd. }
    rewrite IH.
    + rewrite Hb, sum_at_cons.
      destruct (decide (k = kx)) as [->|Hne].
      * rewrite decide_True by done. lia.
      * rewrite decide_False by done. lia.
    + intros k'. rewrite Hb. pose proof (Hpos k'). pose proof (Hpos kx).
      case_decide; lia.
    + intros k'. rewrite Hb. specialize (Hmax k').
      rewrite sum_at_cons in Hmax.
      destruct (decide (k' = kx)) as [->|Hne].
      * rewrite decide_True in Hmax by done. lia.
      * rewrite decide_False in Hmax by done. lia.
Qed.

Lemma tally_app (l1 l2 : list (instanceInfo * Z)) (m : counts) :
  tally (l1 ++ l2) m = tally l2 (tally l1 m).
Proof. unfold tally. apply foldl_app. Qed.

Lemma bind_inr_inv {A B} (m : M A) (f : A → M B) log log' b :
  (m ≫= f) log = (log', inr b) →
  ∃ log1 a, m log = (log1, inr a) ∧ f a log1 = (log', inr b).
Proof.
  unfold mbind, M_bind. destruct (m log) as [log1 [st|a]]; [done|]. eauto.
Qed.

Lemma count_loop_tally (l : list Instance) :
  ∀ (m0 : counts) log log' m,
    for_each l (λ m inst,
      ty ← deref (InstanceType inst);
      pl ← deref (Placement_ inst);
      az ← deref (AvailabilityZone pl);
      let ii := {| Type_ := ty; AZ := az |} in
      mret (<[ii := Int.add (default 0 (m !! ii)) 1]> m)) m0 log
    = (log', inr m) →
    log' = log ∧ m = tally (counted l) m0.
Proof.
  induction l as [|x l IH]; intros m0 log log' m Hrun.
  - by injection Hrun as -> ->.
  - cbn [for_each] in Hrun.
    apply bind_inr_inv in Hrun as (log1 & m1 & Hx & Hrest).
    destruct (count_one_cases m0 x log) as [(_ & k & Hk & Hok)|(_ & _ & Hbad)];
      [|by pose proof (eq_trans (eq_sym Hbad) Hx)].
    pose proof (eq_trans (eq_sym Hok) Hx) as Heq. injection Heq as <- <-.
    apply IH in Hrest as [-> ->]. split; [done|].
    unfold counted. cbn [omap list_omap]. by rewrite Hk.
Qed.

Lemma count_running_tally resp log log' m :
  count_running resp log = (log', inr m) →
  log' = log ∧ m = tally (counted (all_instances resp)) ∅.
Proof.
  unfold count_running. generalize (∅ : counts). revert log log' m.
  induction resp as [|r resp IH]; intros log log' m m0 Hrun.
  - by injection Hrun as -> ->.
  - cbn [for_each] in Hrun.
    apply bind_inr_inv in Hrun as (log1 & m1 & Hr & Hrest).
    apply count_loop_tally in Hr as [-> ->].
    apply IH in Hrest as [-> ->]. split; [done|].
    unfold all_instances, counted. cbn [fmap list_fmap concat].
    by rewrite omap_app, fmap_app, tally_app.
Qed.

Lemma sum_at_counted k (l : list Instance) :
  sum_at k (counted l)
  = Z.of_nat (length (filter (λ inst, instance_key inst = Some k) l)).
Proof.
  unfold counted. induction l as [|x l IH]; [done|].
  rewrite filter_cons. cbn [omap list_omap].
  destruct (instance_key x) as [kx|] eqn:Hx.
  - rewrite fmap_cons, sum_at_cons, IH.
    destruct (decide (kx = k)) as [->|Hne].
    + rewrite decide_True by done. cbn [length]. lia.
    + rewrite decide_False by congruence. done.
  - rewrite decide_False by done. apply IH.
Qed.

Lemma counted_nonneg (l : list Instance) : Forall (λ e, 0 ≤ e.2) (counted l).
Proof.
  unfold counted. apply Forall_fmap, Forall_forall. intros k _. cbn. lia.
Qed.

Lemma elem_of_counted k (l : list Instance) :
  k ∈ (counted l).*1
  ↔ (0 < length (filter (λ inst, instance_key inst = Some k) l))%nat.
Proof.
  assert (Hfst : (counted l).*1 = omap instance_key l).
  { unfold counted. rewrite <- list_fmap_compose.
    generalize (omap instance_key l). intros ks.
    induction ks as [|k0 ks IH]; [done|]. cbn. by f_equal. }
  rewrite Hfst, list_elem_of_omap. split.
  - intros (x & Hin & Hk).
    assert (Hf : x ∈ filter (λ inst, instance_key inst = Some k) l)
      by by apply list_elem_of_filter.
    destruct (filter _ l); [by apply elem_of_nil in Hf|cbn; lia].
  - intros Hlen.
    destruct (filter (λ inst, instance_key inst = Some k) l) as [|x f] eqn:Hf;
      [cbn in Hlen; lia|].
    assert (Hin : x ∈ filter (λ inst, instance_key inst = Some k) l)
      by (rewrite Hf; left).
    apply list_elem_of_filter in Hin as [? ?]. eauto.
Qed.

(** X9.  The counting loop of [do] counts: when it completes, and given
    fewer than 2^63 instances, the running map holds for every type and
    zone the number of fetched instances with that type and zone, and no
    entry where there is none.  The log is left as it was. *)
Theorem X9_count_running_counts resp log log' (m : counts) :
  count_running resp log = (log', inr m) →
  Z.of_nat (length (all_instances resp)) ≤ Int.max_int →
  log' = log
  ∧ ∀ k, m !! k
         = if decide (instances_at k resp = 0%nat) then None
           else Some (Z.of_nat (instances_at k resp)).
Proof.
  intros Hrun Hlen. apply count_running_tally in Hrun as [-> ->].
  split; [done|]. intros k. unfold instances_at.
  assert (Hle : ∀ k', Z.of_nat (length (filter
                        (λ inst, instance_key inst = Some k')
                        (all_instances resp))) ≤ Int.max_int).
  { intros k'.
    pose proof (length_filter (λ inst, instance_key inst = Some k')
                  (all_instances resp)). lia. }
  assert (Hval : default 0 (tally (counted (all_instances resp)) ∅ !! k)
                 = Z.of_nat (length (filter
                     (λ inst, instance_key inst = Some k)
                     (all_instances resp)))).
  { rewrite tally_exact.
    - rewrite lookup_empty, sum_at_counted. cbn. lia.
    - apply counted_nonneg.
    - intros k'. by rewrite lookup_empty.
    - intros k'. rewrite lookup_empty, sum_at_counted. cbn.
      specialize (Hle k'). lia. }
  pose proof (tally_keys (counted (all_instances resp)) ∅ k) as Hkeys.
  rewrite elem_of_counted, lookup_empty in Hkeys.
  destruct (tally (counted (all_instances resp)) ∅ !! k) as [v|] eqn:Hv.
  - cbn in Hval. subst v. case_decide as Hz; [|done].
    exfalso. destruct (proj1 Hkeys) as [[? ?]|?]; [eauto|done|lia].
  - case_decide as Hz; [done|].
    exfalso. destruct (proj2 Hkeys) as [? ?]; [right; lia|done].
Qed.

Lemma X9_count_running_counts_witness :
  @nil event = []
  ∧ ∀ k, ({[m3_medium_1a := 2]} : counts) !! k
         = if decide (instances_at k
                        [{| Instances :=
                              [running_instance "m3.medium" "us-east-1a";
                               running_instance "m3.medium" "us-east-1a"] |}]
                      = 0%nat)
           then None
           else Some (Z.of_nat (instances_at k
                        [{| Instances :=
                              [running_instance "m3.medium" "us-east-1a";
                               running_instance "m3.medium" "us-east-1a"] |}])).
Proof.
  apply (X9_count_running_counts
           [{| Instances := [running_instance "m3.medium" "us-east-1a";
                             running_instance "m3.medium" "us-east-1a"] |}]
           [] [] {[m3_medium_1a := 2]}); by_evaluation.
Defined.

(** What one round of the parsing loop does when it goes on. *)
Lemma parse_one_inr (azs rs : counts) (r : ReservedInstances) log log' s' :
  parse_one (azs, rs) r log = (log', inr s') →
  log' = log
  ∧ s' = (from_option (λ e, bump azs e.1 e.2) azs (zone_entry r),
          from_option (λ e, bump rs e.1 e.2) rs (region_entry r)).
Proof.
  unfold parse_one, zone_entry, region_entry, bump.
  destruct (Scope r) as [scope|];
    cbv [mbind M_bind mret M_ret deref fail panic]; [|done].
  destruct (decide (scope = "Region")) as [Hreg|Hreg].
  - destruct (RInstanceType r) as [ty|];
      cbv [mbind M_bind mret M_ret deref fail panic]; [|done].
    destruct (InstanceCount r) as [n|];
      cbv [mbind M_bind mret M_ret deref fail panic]; [|done].
    intros [= <- <-]. split; [done|]. f_equal.
    destruct (RAvailabilityZone r); [|done].
    rewrite decide_False; [done|]. by rewrite Hreg.
  - destruct (decide (scope = "Availability Zone")) as [Haz|Haz]; [|done].
    destruct (RInstanceType r) as [ty|];
      cbv [mbind M_bind mret M_ret deref fail panic]; [|done].
    destruct (RAvailabilityZone r) as [z|];
      cbv [mbind M_bind mret M_ret deref fail panic]; [|done].
    destruct (InstanceCount r) as [n|];
      cbv [mbind M_bind mret M_ret deref fail panic]; [|done].
    intros [= <- <-]. done.
Qed.

Lemma parse_loop_tally (ris : list ReservedInstances) :
  ∀ (azs rs : counts) log log' az region,
    for_each ris parse_one (azs, rs) log = (log', inr (az, region)) →
    log' = log
    ∧ az = tally (omap zone_entry ris) azs
    ∧ region = tally (omap region_entry ris) rs.
Proof.
  induction ris as [|r ris IH]; intros azs rs log log' az region Hrun.
  - by injection Hrun as -> -> ->.
  - cbn [for_each] in Hrun.
    apply bind_inr_inv in Hrun as (log1 & [azs1 rs1] & Hr & Hrest).
    apply parse_one_inr in Hr as [-> [= -> ->]].
    apply IH in Hrest as (-> & -> & ->). split; [done|].
    cbn [omap list_omap].
    by destruct (zone_entry r) as [[??]|], (region_entry r) as [[??]|].
Qed.

Lemma elem_of_region_entries k (ris : list ReservedInstances) :
  k ∈ (omap region_entry ris).*1
  ↔ ∃ r, r ∈ ris ∧ Scope r = Some "Region"
         ∧ RInstanceType r = Some (Type_ k) ∧ AZ k = EmptyString
         ∧ is_Some (InstanceCount r).
Proof.
  rewrite list_elem_of_fmap. split.
  - intros ([k' n] & -> & Hin). apply list_elem_of_omap in Hin as (r & Hr & He).
    exists r. split; [done|]. unfold region_entry in He.
    destruct (Scope r) as [scope|]; [|done].
    destruct (RInstanceType r) as [ty|]; [|done].
    destruct (InstanceCount r) as [n'|]; [|done].
    case_decide; [|done]. simplify_eq. cbn. eauto.
  - intros (r & Hr & Hs & Ht & Hz & [n Hn]). exists (k, n). split; [done|].
    apply list_elem_of_omap. exists r. split; [done|].
    unfold region_entry. rewrite Hs, Ht, Hn, decide_True by done.
    destruct k as [ty z]. cbn in *. by subst.
Qed.

Lemma elem_of_zone_entries k (ris : list ReservedInstances) :
  k ∈ (omap zone_entry ris).*1
  ↔ ∃ r, r ∈ ris ∧ Scope r = Some "Availability Zone"
         ∧ RInstanceType r = Some (Type_ k)
         ∧ RAvailabilityZone r = Some (AZ k)
         ∧ is_Some (InstanceCount r).
Proof.
  rewrite list_elem_of_fmap. split.
  - intros ([k' n] & -> & Hin). apply list_elem_of_omap in Hin as (r & Hr & He).
    exists r. split; [done|]. unfold zone_entry in He.
    destruct (Scope r) as [scope|]; [|done].
    destruct (RInstanceType r) as [ty|]; [|done].
    destruct (RAvailabilityZone r) as [z|]; [|done].
    destruct (InstanceCount r) as [n'|]; [|done].
    case_decide; [|done]. simplify_eq. cbn. eauto.
  - intros (r & Hr & Hs & Ht & Hz & [n Hn]). exists (k, n). split; [done|].
    apply list_elem_of_omap. exists r. split; [done|].
    unfold zone_entry. rewrite Hs, Ht, Hz, Hn, decide_True by done.
    by destruct k.
Qed.

(** X10.  The parsing loop of [do] files every record under the right
    key: when it completes, the region map has a key exactly for the types
    of the "Region" records, always with the empty zone, and the zone map
    has a key exactly for the type and zone of the "Availability Zone"
    records.  The log is left as it was. *)
Theorem X10_parse_keys ris log log' (az region : counts) :
  parse_reservations ris log = (log', inr (az, region)) →
  log' = log
  ∧ region_keyed region
  ∧ (∀ k, is_Some (region !! k)
          ↔ ∃ r, r ∈ ris ∧ Scope r = Some "Region"
                 ∧ RInstanceType r = Some (Type_ k) ∧ AZ k = EmptyString)
  ∧ (∀ k, is_Some (az !! k)
          ↔ ∃ r, r ∈ ris ∧ Scope r = Some "Availability Zone"
                 ∧ RInstanceType r = Some (Type_ k)
                 ∧ RAvailabilityZone r = Some (AZ k)).
Proof.
  intros Hrun.
  assert (Hok : Forall reserved_ok ris).
  { destruct (parse_reservations_cases ris log)
      as [[? _]|(_ & st & _ & Hst)]; [done|congruence]. }
  assert (Hcount : ∀ r scope, r ∈ ris → Scope r = Some scope →
            scope = "Region" ∨ scope = "Availability Zone" →
            is_Some (InstanceCount r)).
  { intros r scope Hr Hs Hscope.
    pose proof (proj1 (Forall_forall _ _) Hok r Hr) as [Hc _].
    unfold complete_reserved in Hc. rewrite Hs in Hc.
    destruct Hscope as [->| ->].
    - rewrite decide_True in Hc by done. tauto.
    - rewrite decide_False, decide_True in Hc by done. tauto. }
  unfold parse_reservations in Hrun.
  apply parse_loop_tally in Hrun as (-> & -> & ->).
  assert (Hregion : ∀ k, is_Some (tally (omap region_entry ris) ∅ !! k)
            ↔ ∃ r, r ∈ ris ∧ Scope r = Some "Region"
                   ∧ RInstanceType r = Some (Type_ k) ∧ AZ k = EmptyString).
  { intros k. rewrite tally_keys, lookup_empty, elem_of_region_entries. split.
    - intros [[? ?]|(r & ? & ? & ? & ? & _)]; [done|eauto].
    - intros (r & Hr & Hs & Ht & Hz). right. exists r.
      split_and!; [done..|]. eapply Hcount; eauto. }
  split_and!; [done| |done|].
  - intros k v Hk. cbn.
    destruct (proj1 (Hregion k)) as (r & _ & _ & _ & Hz); [eauto|done].
  - intros k. rewrite tally_keys, lookup_empty, elem_of_zone_entries. split.
    + intros [[? ?]|(r & ? & ? & ? & ? & _)]; [done|eauto].
    + intros (r & Hr & Hs & Ht & Hz). right. exists r.
      split_and!; [done..|]. eapply Hcount; eauto.
Qed.

Lemma X10_parse_keys_witness :
  @nil event = []
  ∧ region_keyed {[m3_medium := 4]}
  ∧ (∀ k, is_Some (({[m3_medium := 4]} : counts) !! k)
          ↔ ∃ r, r ∈ [{| Scope := Some "Region";
                         RInstanceType := Some "m3.medium";
                         InstanceCount := Some 4;
                         RAvailabilityZone := None |}]
                 ∧ Scope r = Some "Region"
                 ∧ RInstanceType r = Some (Type_ k) ∧ AZ k = EmptyString)
  ∧ (∀ k, is_Some ((∅ : counts) !! k)
          ↔ ∃ r, r ∈ [{| Scope := Some "Region";
                         RInstanceType := Some "m3.medium";
                         InstanceCount := Some 4;
                         RAvailabilityZone := None |}]
                 ∧ Scope r = Some "Availability Zone"
                 ∧ RInstanceType r = Some (Type_ k)
                 ∧ RAvailabilityZone r = Some (AZ k)).
Proof.
  apply (X10_parse_keys
           [{| Scope := Some "Region"; RInstanceType := Some "m3.medium";
               InstanceCount := Some 4; RAvailabilityZone := None |}]
           [] [] ∅ {[m3_medium := 4]}).
  by_evaluation.
Defined.

(** X11.  Records of one scope, type and zone add up: when the parsing
    loop completes, the counts are not negative and no key's sum reaches
    2^63, each entry of the zone map and of the region map is the sum of
    the counts of the records filed under its key, and both maps hold
    counts. *)
Theorem X11_parse_sums ris log log' (az region : counts) :
  parse_reservations ris log = (log', inr (az, region)) →
  Forall (λ r, ∀ n, InstanceCount r = Some n → 0 ≤ n) ris →
  (∀ k, sum_at k (omap zone_entry ris) ≤ Int.max_int) →
  (∀ k, sum_at k (omap region_entry ris) ≤ Int.max_int) →
  (∀ k, default 0 (az !! k) = sum_at k (omap zone_entry ris))
  ∧ (∀ k, default 0 (region !! k) = sum_at k (omap region_entry ris))
  ∧ counts_ok az ∧ counts_ok region.
Proof.
  intros Hrun Hpos Hzmax Hrmax. unfold parse_reservations in Hrun.
  apply parse_loop_tally in Hrun as (-> & -> & ->).
  assert (Hzpos : Forall (λ e, 0 ≤ e.2) (omap zone_entry ris)).
  { apply Forall_forall. intros [k n] (r & Hr & He)%list_elem_of_omap. cbn.
    pose proof (proj1 (Forall_forall _ _) Hpos r Hr) as Hn.
    unfold zone_entry in He.
    cbv beta in Hn.
    destruct (Scope r) as [scope|], (RInstanceType r), (RAvailabilityZone r),
             (InstanceCount r) as [n'|]; try done.
    destruct (decide (scope = "Availability Zone")); [|done].
    injection He as _ <-. by apply Hn. }
  assert (Hrpos : Forall (λ e, 0 ≤ e.2) (omap region_entry ris)).
  { apply Forall_forall. intros [k n] (r & Hr & He)%list_elem_of_omap. cbn.
    pose proof (proj1 (Forall_forall _ _) Hpos r Hr) as Hn.
    unfold region_entry in He.
    cbv beta in Hn.
    destruct (Scope r) as [scope|], (RInstanceType r),
             (InstanceCount r) as [n'|]; try done.
    destruct (decide (scope = "Region")); [|done].
    injection He as _ <-. by apply Hn. }
  assert (Hz : ∀ k, default 0 (tally (omap zone_entry ris) ∅ !! k)
                    = sum_at k (omap zone_entry ris)).
  { intros k. rewrite tally_exact; [by rewrite lookup_empty|done|..];
      intros k'; rewrite lookup_empty; cbn; [done|]. apply Hzmax. }
  assert (Hr : ∀ k, default 0 (tally (omap region_entry ris) ∅ !! k)
                    = sum_at k (omap region_entry ris)).
  { intros k. rewrite tally_exact; [by rewrite lookup_empty|done|..];
      intros k'; rewrite lookup_empty; cbn; [done|]. apply Hrmax. }
  split_and!; [done..| |].
  - intros k v Hk. cbn. specialize (Hz k). rewrite Hk in Hz. cbn in Hz.
    pose proof (sum_at_nonneg k _ Hzpos). specialize (Hzmax k).
    int_simpl. lia.
  - intros k v Hk. cbn. specialize (Hr k). rewrite Hk in Hr. cbn in Hr.
    pose proof (sum_at_nonneg k _ Hrpos). specialize (Hrmax k).
    int_simpl. lia.
Qed.

Lemma X11_parse_sums_witness :
  (∀ k, default 0 ((∅ : counts) !! k)
        = sum_at k (omap zone_entry
            [{| Scope := Some "Region"; RInstanceType := Some "m3.medium";
                InstanceCount := Some 4; RAvailabilityZone := None |};
             {| Scope := Some "Region"; RInstanceType := Some "m3.medium";
                InstanceCount := Some 3; RAvailabilityZone := None |}]))
  ∧ (∀ k, default 0 (({[m3_medium := 7]} : counts) !! k)
          = sum_at k (omap region_entry
              [{| Scope := Some "Region"; RInstanceType := Some "m3.medium";
                  InstanceCount := Some 4; RAvailabilityZone := None |};
               {| Scope := Some "Region"; RInstanceType := Some "m3.medium";
                  InstanceCount := Some 3; RAvailabilityZone := None |}]))
  ∧ counts_ok ∅ ∧ counts_ok {[m3_medium := 7]}.
Proof.
  apply (X11_parse_sums
           [{| Scope := Some "Region"; RInstanceType := Some "m3.medium";
               InstanceCount := Some 4; RAvailabilityZone := None |};
            {| Scope := Some "Region"; RInstanceType := Some "m3.medium";
               InstanceCount := Some 3; RAvailabilityZone := None |}]
           [] [] ∅ {[m3_medium := 7]}).
  - by_evaluation.
  - repeat constructor; intros n [= <-]; lia.
  - intros k. change (0 ≤ Int.max_int). by_evaluation.
  - intros k.
    change (sum_at k [(m3_medium, 4); (m3_medium, 3)] ≤ Int.max_int).
    rewrite !sum_at_cons. change (sum_at k []) with 0.
    rewrite max_int_val. repeat case_decide; lia.
Defined.

(** ** The rows of the report *)

Lemma sum_counts_cons r (l : list reportedInfo) :
  sum_counts (r :: l) = Count r + sum_counts l.
Proof. reflexivity. Qed.

Lemma sum_counts_perm (l1 l2 : list reportedInfo) :
  l1 ≡ₚ l2 → sum_counts l1 = sum_counts l2.
Proof.
  induction 1 as [|x l1 l2 _ IH|x y l|l1 l2 l3 _ IH1 _ IH2];
    rewrite ?sum_counts_cons; [done|by rewrite IH|lia|congruence].
Qed.

Lemma sum_counts_rows (result : counts) (row : counts → instanceInfo → option reportedInfo)
    (f : Z → Z) (l : list (instanceInfo * Z)) :
  (∀ k v, (k, v) ∈ l → result !! k = Some v) →
  (∀ k v, result !! k = Some v →
     from_option Count 0 (row result k) = f v) →
  sum_counts (omap (row result) l.*1)
  = foldr (λ kv acc, f kv.2 + acc) 0 l.
Proof.
  intros Hl Hrow. induction l as [|[k v] l IH]; [done|].
  cbn [fmap list_fmap fst omap list_omap foldr snd].
  assert (Hk : result !! k = Some v) by (apply Hl; left).
  specialize (Hrow k v Hk).
  rewrite <- IH by (intros ???; apply Hl; by right).
  destruct (row result k) as [r|]; rewrite ?sum_counts_cons;
    cbn [from_option] in Hrow; lia.
Qed.

Lemma msum_foldr (f : Z → Z) (m : counts) :
  msum f m = foldr (λ kv acc, f kv.2 + acc) 0 (map_to_list m).
Proof.
  unfold msum. rewrite map_fold_foldr.
  induction (map_to_list m) as [|[k v] l IH]; [done|]. cbn. by rewrite IH.
Qed.

Lemma report_sums sched (result : counts) :
  fair sched → deltas_ok result →
  sum_counts (report sched result).1 = uncovered result
  ∧ sum_counts (report sched result).2 = unused result.
Proof.
  intros Hfair Hd.
  assert (Hl : ∀ k v, (k, v) ∈ map_to_list result → result !! k = Some v).
  { intros k v. apply elem_of_map_to_list. }
  rewrite report_fst, report_snd.
  rewrite (sum_counts_perm _ _ (SliceStable_perm by_type _)).
  rewrite (sum_counts_perm _ _ (SliceStable_perm by_type _)).
  rewrite collect_omap. cbn [fst snd].
  rewrite (sum_counts_perm _ (omap (on_demand_of result) (keys result)))
    by (by rewrite (Hfair 5%nat)).
  rewrite (sum_counts_perm (omap (unused_of result) _)
             (omap (unused_of result) (keys result)))
    by (by rewrite (Hfair 5%nat)).
  unfold keys, uncovered, unused. split.
  - match goal with
    | |- _ = msum ?f _ =>
        rewrite (msum_foldr f); apply (sum_counts_rows result on_demand_of f)
    end; [done|].
    intros k v Hk. unfold on_demand_of. rewrite Hk.
    pose proof (map_Forall_lookup_1 _ _ _ _ Hd Hk) as Hv. cbn in Hv.
    case_bool_decide; [|done]. cbn. by apply neg_exact.
  - match goal with
    | |- _ = msum ?f _ =>
        rewrite (msum_foldr f); apply (sum_counts_rows result unused_of f)
    end; [done|].
    intros k v Hk. unfold unused_of. rewrite Hk.
    repeat case_bool_decide; try done; lia.
Qed.

(** X12.  The report loses and invents nothing: for a result whose values
    can be negated exactly, the counts of the uncovered rows add up to the
    magnitudes of the negative entries of the result and the counts of the
    unused rows to its positive entries, whatever the order of the
    collecting loop. *)
Theorem X12_report_sums sched (result : counts) :
  fair sched → deltas_ok result →
  sum_counts (report sched result).1 = uncovered result
  ∧ sum_counts (report sched result).2 = unused result.
Proof. apply report_sums. Qed.

Lemma X12_report_sums_witness :
  sum_counts (report in_order {[m3_medium_1a := -3; m3_medium := 2]}).1
  = uncovered {[m3_medium_1a := -3; m3_medium := 2]}
  ∧ sum_counts (report in_order {[m3_medium_1a := -3; m3_medium := 2]}).2
    = unused {[m3_medium_1a := -3; m3_medium := 2]}.
Proof.
  apply (X12_report_sums in_order); [exact in_order_fair|].
  unfold deltas_ok. by_evaluation.
Defined.

Lemma NoDup_rows (row : instanceInfo → option reportedInfo)
    (l : list instanceInfo) :
  (∀ k r, row k = Some r → (RType r, RAZ r) = (Type_ k, AZ k)) →
  NoDup l → NoDup ((λ r, (RType r, RAZ r)) <$> omap row l).
Proof.
  intros Hrow. induction 1 as [|k l Hk Hl IH]; [constructor|].
  cbn [omap list_omap]. destruct (row k) as [r|] eqn:Hr; [|done].
  rewrite fmap_cons. constructor; [|done].
  intros (r' & Heq & Hin)%list_elem_of_fmap.
  apply list_elem_of_omap in Hin as (k' & Hk' & Hr').
  apply Hrow in Hr, Hr'. rewrite Hr, Hr' in Heq.
  assert (k = k') by (destruct k, k'; cbn in *; congruence).
  by subst.
Qed.

(** X13.  One uncovered row per type and zone: no two rows of the
    uncovered report agree in both type and zone. *)
Theorem X13_uncovered_rows_distinct sched (result : counts) :
  fair sched →
  NoDup ((λ r, (RType r, RAZ r)) <$> (report sched result).1).
Proof.
  intros Hfair. rewrite report_fst.
  rewrite (SliceStable_perm by_type), collect_omap. cbn [fst].
  apply NoDup_rows; [|by apply sched_NoDup].
  intros k r. unfold on_demand_of.
  destruct (result !! k) as [v|]; [|done].
  case_bool_decide; [|done]. by intros [= <-].
Qed.

Lemma X13_uncovered_rows_distinct_witness :
  NoDup ((λ r, (RType r, RAZ r))
           <$> (report in_order {[m3_medium_1a := -3; m3_medium := 2]}).1).
Proof. apply (X13_uncovered_rows_distinct in_order). exact in_order_fair. Defined.

(** ** From the fetched records to the balance of the report *)

Lemma sum_amounts_cons e (l : list (instanceInfo * Z)) :
  sum_amounts (e :: l) = e.2 + sum_amounts l.
Proof. reflexivity. Qed.

(** One step of a tally that does not overflow. *)
Lemma bump_exact (m0 : counts) kx n (l : list (instanceInfo * Z)) :
  0 ≤ n → Forall (λ e, 0 ≤ e.2) l →
  (∀ k, 0 ≤ default 0 (m0 !! k)) →
  (∀ k, default 0 (m0 !! k) + sum_at k ((kx, n) :: l) ≤ Int.max_int) →
  Int.add (default 0 (m0 !! kx)) n = default 0 (m0 !! kx) + n
  ∧ (∀ k, 0 ≤ default 0 (bump m0 kx n !! k))
  ∧ (∀ k, default 0 (bump m0 kx n !! k) + sum_at k l ≤ Int.max_int).
Proof.
  intros Hn Hl Hpos Hmax.
  assert (Hadd : Int.add (default 0 (m0 !! kx)) n = default 0 (m0 !! kx) + n).
  { apply add_exact. pose proof (Hpos kx). pose proof (Hmax kx) as Hm.
    pose proof (sum_at_nonneg kx l Hl).
    rewrite sum_at_cons, decide_True in Hm by done. int_simpl. lia. }
  split; [done|]. split; intros k; rewrite bump_lookup, Hadd;
    pose proof (Hpos k); pose proof (Hpos kx); pose proof (Hmax k) as Hm;
    rewrite sum_at_cons in Hm.
  - destruct (decide (k = kx)); simpl; lia.
  - destruct (decide (k = kx)) as [->|Hne].
    + rewrite decide_True in Hm by done. simpl. lia.
    + rewrite decide_False in Hm by done. lia.
Qed.

Lemma tally_total (l : list (instanceInfo * Z)) :
  Forall (λ e, 0 ≤ e.2) l →
  ∀ m0 : counts,
    (∀ k, 0 ≤ default 0 (m0 !! k)) →
    (∀ k, default 0 (m0 !! k) + sum_at k l ≤ Int.max_int) →
    total (tally l m0) = total m0 + sum_amounts l.
Proof.
  induction 1 as [|[kx n] l Hn Hl IH]; intros m0 Hpos Hmax.
  - cbn. lia.
  - cbn in Hn. cbn [tally foldl fst snd]. fold (tally l (bump m0 kx n)).
    destruct (bump_exact m0 kx n l Hn Hl Hpos Hmax) as (Hadd & Hpos' & Hmax').
    rewrite IH by done. rewrite sum_amounts_cons. cbn [snd].
    unfold bump. rewrite total_insert, Hadd. lia.
Qed.

Lemma tally_counts_ok (l : list (instanceInfo * Z)) :
  Forall (λ e, 0 ≤ e.2) l →
  (∀ k, sum_at k l ≤ Int.max_int) →
  counts_ok (tally l ∅).
Proof.
  intros Hl Hmax k v Hk. cbn.
  assert (Ha : ∀ k', 0 ≤ default 0 ((∅ : counts) !! k')).
  { intros k'. by rewrite lookup_empty. }
  assert (Hb : ∀ k', default 0 ((∅ : counts) !! k') + sum_at k' l
                     ≤ Int.max_int).
  { intros k'. rewrite lookup_empty. cbn. apply Hmax. }
  pose proof (tally_exact l Hl ∅ Ha Hb k) as Hex.
  rewrite Hk, lookup_empty in Hex. cbn in Hex.
  pose proof (sum_at_nonneg k l Hl). specialize (Hmax k).
  int_simpl. lia.
Qed.

Lemma tally_keyed (P : instanceInfo → Prop) (l : list (instanceInfo * Z)) :
  Forall (λ e, P e.1) l → map_Forall (λ k _, P k) (tally l ∅).
Proof.
  intros Hl k v Hk.
  assert (Hs : is_Some (tally l ∅ !! k)) by eauto.
  apply tally_keys in Hs as [[? Hs]|Hin]; [by rewrite lookup_empty in Hs|].
  apply list_elem_of_fmap in Hin as (e & -> & He).
  by apply (proj1 (Forall_forall _ _) Hl e).
Qed.

(** The sum of the result, as in the proof of conservation. *)
Lemma result_total sched (running az region : counts) :
  fair sched →
  counts_ok running → counts_ok az → counts_ok region →
  zone_keyed running → zone_keyed az → region_keyed region →
  total (call_reconcile sched running az region).1
  = total az - total running + total region.
Proof.
  intros Hfair Hr Ha Hg Hzr Hza Hzg. rewrite reconcile_result by done.
  cbn [fst]. unfold total at 1. rewrite msum_union by by apply borrowed_disjoint.
  destruct (borrowed_balanced sched Hfair running az region Hr Ha Hg)
    as (_ & _ & Hsum).
  unfold total in *. lia.
Qed.

Lemma sum_amounts_counted (l : list Instance) :
  Forall complete_instance l →
  sum_amounts (counted l) = Z.of_nat (length l).
Proof.
  unfold counted. induction 1 as [|x l Hx Hl IH]; [done|].
  cbn [omap list_omap length].
  destruct (count_one_cases ∅ x []) as [(_ & k & -> & _)|[? _]]; [|done].
  rewrite fmap_cons, sum_amounts_cons, IH. cbn [snd]. lia.
Qed.

Lemma entries_total (ris : list ReservedInstances) :
  Forall reserved_ok ris →
  sum_amounts (omap zone_entry ris) + sum_amounts (omap region_entry ris)
  = reserved_total ris.
Proof.
  induction 1 as [|r ris [Hc Hk] Hris IH]; [done|].
  cbn [omap list_omap reserved_total foldr]. fold (reserved_total ris).
  rewrite <- IH. clear IH.
  unfold complete_reserved, unknown_scope in Hc, Hk.
  unfold zone_entry, region_entry.
  destruct (Scope r) as [scope|]; [|done].
  destruct (decide (scope = "Region")) as [Hreg|Hreg].
  - destruct Hc as [[ty ->] [n ->]].
    destruct (RAvailabilityZone r);
      rewrite ?decide_False by (by rewrite Hreg);
      rewrite sum_amounts_cons; cbn; lia.
  - destruct (decide (scope = "Availability Zone")) as [Haz|Haz];
      [|exfalso; by apply Hk].
    destruct Hc as ([ty ->] & [z ->] & [n ->]).
    rewrite sum_amounts_cons. cbn. lia.
Qed.

(** X14.  The balance of the report is the balance of the fetched records.
    When counting and parsing complete, zones are not empty where a zone
    is read, counts are not negative and no sum reaches 2^63, then under
    every order of the loops the counts of the uncovered rows minus the
    counts of the unused rows equal the number of running instances minus
    the sum of the counts of all reserved-instances records. *)
Theorem X14_report_balance sched resp ris (running az region : counts) :
  fair sched →
  count_running resp [] = ([], inr running) →
  parse_reservations ris [] = ([], inr (az, region)) →
  Forall (λ inst, ∀ k, instance_key inst = Some k → AZ k ≠ EmptyString)
         (all_instances resp) →
  Forall (λ r, RAvailabilityZone r ≠ Some EmptyString) ris →
  Forall (λ r, ∀ n, InstanceCount r = Some n → 0 ≤ n) ris →
  Z.of_nat (length (all_instances resp)) ≤ Int.max_int →
  (∀ k, sum_at k (omap zone_entry ris) ≤ Int.max_int) →
  (∀ k, sum_at k (omap region_entry ris) ≤ Int.max_int) →
  sum_counts
    (report sched (call_reconcile sched running az region).1).1
  - sum_counts
      (report sched (call_reconcile sched running az region).1).2
  = Z.of_nat (length (all_instances resp)) - reserved_total ris.
Proof.
  intros Hfair Hrun Hparse Hzone Hrz Hpos Hlen Hzmax Hrmax.
  assert (Hcomplete : Forall complete_instance (all_instances resp)).
  { destruct (count_running_cases resp []) as [[Hall _]|[_ Hbad]];
      [|congruence].
    unfold all_instances. clear -Hall.
    induction Hall as [|r resp Hr _ IH]; [constructor|].
    cbn [fmap list_fmap concat]. by apply Forall_app. }
  assert (Hok : Forall reserved_ok ris).
  { destruct (parse_reservations_cases ris [])
      as [[? _]|(_ & st & _ & Hst)]; [done|congruence]. }
  apply count_running_tally in Hrun as [_ ->].
  unfold parse_reservations in Hparse.
  apply parse_loop_tally in Hparse as (_ & -> & ->).
  assert (Hcmax : ∀ k, sum_at k (counted (all_instances resp)) ≤ Int.max_int).
  { intros k. rewrite sum_at_counted.
    pose proof (length_filter (λ inst, instance_key inst = Some k)
                  (all_instances resp)). lia. }
  assert (Hzpos : Forall (λ e, 0 ≤ e.2) (omap zone_entry ris)).
  { apply Forall_forall. intros [k n] (r & Hr & He)%list_elem_of_omap. cbn.
    pose proof (proj1 (Forall_forall _ _) Hpos r Hr) as Hn.
    unfold zone_entry in He. cbv beta in Hn.
    destruct (Scope r) as [scope|], (RInstanceType r), (RAvailabilityZone r),
             (InstanceCount r) as [n'|]; try done.
    destruct (decide (scope = "Availability Zone")); [|done].
    injection He as _ <-. by apply Hn. }
  assert (Hrpos : Forall (λ e, 0 ≤ e.2) (omap region_entry ris)).
  { apply Forall_forall. intros [k n] (r & Hr & He)%list_elem_of_omap. cbn.
    pose proof (proj1 (Forall_forall _ _) Hpos r Hr) as Hn.
    unfold region_entry in He. cbv beta in Hn.
    destruct (Scope r) as [scope|], (RInstanceType r),
             (InstanceCount r) as [n'|]; try done.
    destruct (decide (scope = "Region")); [|done].
    injection He as _ <-. by apply Hn. }
  assert (Hkr : zone_keyed (tally (counted (all_instances resp)) ∅)).
  { apply (tally_keyed (λ k, AZ k ≠ EmptyString)).
    unfold counted. apply Forall_fmap, Forall_forall.
    intros k (inst & Hin & Hk)%list_elem_of_omap. cbn.
    by apply (proj1 (Forall_forall _ _) Hzone inst Hin). }
  assert (Hkz : zone_keyed (tally (omap zone_entry ris) ∅)).
  { apply (tally_keyed (λ k, AZ k ≠ EmptyString)).
    apply Forall_forall. intros [k n] (r & Hr & He)%list_elem_of_omap. cbn.
    pose proof (proj1 (Forall_forall _ _) Hrz r Hr) as Hz. cbv beta in Hz.
    unfold zone_entry in He.
    destruct (Scope r) as [scope|], (RInstanceType r),
             (RAvailabilityZone r) as [z|], (InstanceCount r); try done.
    destruct (decide (scope = "Availability Zone")); [|done].
    injection He as <- _. cbn. congruence. }
  assert (Hkg : region_keyed (tally (omap region_entry ris) ∅)).
  { apply (tally_keyed (λ k, AZ k = EmptyString)).
    apply Forall_forall. intros [k n] (r & Hr & He)%list_elem_of_omap. cbn.
    unfold region_entry in He.
    destruct (Scope r) as [scope|], (RInstanceType r), (InstanceCount r);
      try done.
    destruct (decide (scope = "Region")); [|done].
    by injection He as <- _. }
  pose proof (tally_counts_ok _ (counted_nonneg (all_instances resp)) Hcmax)
    as Hcr.
  pose proof (tally_counts_ok _ Hzpos Hzmax) as Hcz.
  pose proof (tally_counts_ok _ Hrpos Hrmax) as Hcg.
  destruct (report_sums sched
              (call_reconcile sched
                 (tally (counted (all_instances resp)) ∅)
                 (tally (omap zone_entry ris) ∅)
                 (tally (omap region_entry ris) ∅)).1 Hfair) as [-> ->].
  { by apply result_deltas_ok. }
  rewrite uncovered_unused, result_total by done.
  assert (Hempty : ∀ k, 0 ≤ default 0 ((∅ : counts) !! k)).
  { intros k. by rewrite lookup_empty. }
  rewrite (tally_total _ (counted_nonneg (all_instances resp)) ∅ Hempty)
    by (intros k; rewrite lookup_empty; apply Hcmax).
  rewrite (tally_total _ Hzpos ∅ Hempty)
    by (intros k; rewrite lookup_empty; apply Hzmax).
  rewrite (tally_total _ Hrpos ∅ Hempty)
    by (intros k; rewrite lookup_empty; apply Hrmax).
  rewrite total_empty, sum_amounts_counted by done.
  rewrite <- (entries_total ris Hok). lia.
Qed.

Lemma X14_report_balance_witness :
  sum_counts
    (report in_order
       (call_reconcile in_order {[m3_medium_1a := 2]} {[m3_medium_1a := 1]}
          {[m3_medium := 4]}).1).1
  - sum_counts
      (report in_order
         (call_reconcile in_order {[m3_medium_1a := 2]} {[m3_medium_1a := 1]}
            {[m3_medium := 4]}).1).2
  = Z.of_nat (length (all_instances
       [{| Instances := [running_instance "m3.medium" "us-east-1a";
                         running_instance "m3.medium" "us-east-1a"] |}]))
    - reserved_total
        [{| Scope := Some "Region"; RInstanceType := Some "m3.medium";
            InstanceCount := Some 4; RAvailabilityZone := None |};
         {| Scope := Some "Availability Zone";
            RInstanceType := Some "m3.medium"; InstanceCount := Some 1;
            RAvailabilityZone := Some "us-east-1a" |}].
Proof.
  apply (X14_report_balance in_order
    [{| Instances := [running_instance "m3.medium" "us-east-1a";
                      running_instance "m3.medium" "us-east-1a"] |}]
    [{| Scope := Some "Region"; RInstanceType := Some "m3.medium";
        InstanceCount := Some 4; RAvailabilityZone := None |};
     {| Scope := Some "Availability Zone";
        RInstanceType := Some "m3.medium"; InstanceCount := Some 1;
        RAvailabilityZone := Some "us-east-1a" |}]
    {[m3_medium_1a := 2]} {[m3_medium_1a := 1]} {[m3_medium := 4]}).
  - exact in_order_fair.
  - by_evaluation.
  - by_evaluation.
  - repeat constructor; intros k [= <-]; done.
  - repeat constructor; done.
  - repeat constructor; intros n [= <-]; lia.
  - by_evaluation.
  - intros k. change (sum_at k [(m3_medium_1a, 1)] ≤ Int.max_int).
    rewrite sum_at_cons. change (sum_at k []) with 0.
    rewrite max_int_val. case_decide; lia.
  - intros k. change (sum_at k [(m3_medium, 4)] ≤ Int.max_int).
    rewrite sum_at_cons. change (sum_at k []) with 0.
    rewrite max_int_val. case_decide; lia.
Defined.
